(** * Cute Chess command-line match controller: [EngineMatch]

    A shallow embedding of [projects/cli/src/enginematch.cpp]
    ([addOpeningBook], [onGameFinished], [onTournamentFinished],
    [printRanking]) and the properties of it that the specification
    states.

    Conventions of the embedding.
    - C++ [int] values (game counters, player counts, the rating
      interval) are integers of [Z]; [/] on [int] is [Z.quot] and [%]
      is [Z.rem] (truncation towards zero).  The counters count finished
      games, so no signed overflow (which C++ leaves undefined) occurs.
    - [qreal] ([double]) values are extended reals: the IEEE-754 special
      values (both infinities and NaN) are kept with their arithmetic,
      finite results are exact (rounding is idealised) and the sign of a
      zero is not tracked (a zero divisor is [+0.0], which is the only
      zero divisor [printRanking] can produce).
    - Text written with [qDebug] / [qWarning] is a list of structured
      lines, one constructor per format string of the source. *)

From stdpp Require Import base gmap strings.
From Stdlib Require Import ZArith Reals Lra Lia String List Bool.
From Stdlib Require Import Sorting.Sorted Sorting.Permutation.
Import ListNotations.
Open Scope Z_scope.

(* ================================================================== *)
(** * [qreal]: doubles as extended reals *)
(* ================================================================== *)

Inductive qreal : Type :=
| Fin (r : R)
| PInf
| NInf
| NaN.

(** [x * inf] for a finite [x]: the sign of [x] decides, [0 * inf] is NaN. *)
Definition signed_inf (x : R) : qreal :=
  match total_order_T 0 x with
  | inleft (left _) => PInf
  | inleft (right _) => NaN
  | inright _ => NInf
  end.

(** [qreal(int)]: every [int] is exactly representable. *)
Definition of_int (z : Z) : qreal := Fin (IZR z).

Definition qneg (x : qreal) : qreal :=
  match x with
  | Fin a => Fin (- a)
  | PInf => NInf
  | NInf => PInf
  | NaN => NaN
  end.

Definition qsub (x y : qreal) : qreal :=
  match x, y with
  | NaN, _ | _, NaN => NaN
  | Fin a, Fin b => Fin (a - b)
  | Fin _, PInf => NInf
  | Fin _, NInf => PInf
  | PInf, PInf => NaN
  | PInf, _ => PInf
  | NInf, NInf => NaN
  | NInf, _ => NInf
  end.

Definition qmul (x y : qreal) : qreal :=
  match x, y with
  | NaN, _ | _, NaN => NaN
  | Fin a, Fin b => Fin (a * b)
  | Fin a, PInf | PInf, Fin a => signed_inf a
  | Fin a, NInf | NInf, Fin a => signed_inf (- a)
  | PInf, PInf | NInf, NInf => PInf
  | PInf, NInf | NInf, PInf => NInf
  end.

(** Division; a finite nonzero value over zero is an infinity (IEEE-754
    division by zero), [0/0] and [inf/inf] are NaN. *)
Definition qdiv (x y : qreal) : qreal :=
  match x, y with
  | NaN, _ | _, NaN => NaN
  | Fin a, Fin b =>
      if Req_dec_T b 0 then signed_inf a else Fin (a / b)
  | Fin _, PInf | Fin _, NInf => Fin 0
  | PInf, Fin b => if Rlt_dec b 0 then NInf else PInf
  | NInf, Fin b => if Rlt_dec b 0 then PInf else NInf
  | _, _ => NaN
  end.

(** [std::log]: [log(+0) = -inf], [log(+inf) = +inf], NaN below zero. *)
Definition qlog (x : qreal) : qreal :=
  match x with
  | Fin a =>
      match total_order_T 0 a with
      | inleft (left _) => Fin (ln a)
      | inleft (right _) => NInf
      | inright _ => NaN
      end
  | PInf => PInf
  | NInf => NaN
  | NaN => NaN
  end.

(** [operator<] on doubles: false as soon as one side is NaN. *)
Definition qlt (x y : qreal) : bool :=
  match x, y with
  | NaN, _ | _, NaN => false
  | Fin a, Fin b => if Rlt_dec a b then true else false
  | _, NInf => false
  | NInf, _ => true
  | PInf, _ => false
  | Fin _, PInf => true
  end.

(** [operator!=] on doubles: true as soon as one side is NaN. *)
Definition qne (x y : qreal) : bool :=
  match x, y with
  | NaN, _ | _, NaN => true
  | Fin a, Fin b => if Req_dec_T a b then false else true
  | PInf, PInf | NInf, NInf => false
  | _, _ => true
  end.

Definition is_nan (x : qreal) : bool :=
  match x with NaN => true | _ => false end.

(** The order of the extended real line, for stating results. *)
Definition qless (x y : qreal) : Prop := qlt x y = true.

(* ================================================================== *)
(** * Data model *)
(* ================================================================== *)

(** [Tournament::PlayerData], as [EngineMatch] reads it: the name of the
    player's builder and the three game counters. *)
Record PlayerData : Type := mkPlayerData {
  builder_name : string;
  wins : Z;
  losses : Z;
  draws : Z
}.

Module Sprt.

(** [Sprt::Result], as [printRanking] reads it: the two acceptances that
    it tests for, and the result of a test that goes on. *)
Inductive Result : Type := Continuing | AcceptH0 | AcceptH1.

(** [Sprt::Status], as [printRanking] reads it. *)
Record Status : Type := mkStatus {
  result : Result;
  llr : qreal;
  lBound : qreal;
  uBound : qreal
}.

End Sprt.

(** What [EngineMatch] reads from its [Tournament]: [playerAt] and
    [playerCount], [finishedGameCount], [sprt()->status()] and
    [errorString]. *)
Record Tournament : Type := mkTournament {
  players : list PlayerData;
  finishedGameCount : Z;
  sprt_status : Sprt.Status;
  errorString : string
}.

Definition playerCount (t : Tournament) : Z := Z.of_nat (length (players t)).

Definition playerAt (t : Tournament) (i : nat) : option PlayerData :=
  nth_error (players t) i.

Module Rank.

(** [struct RankingData]. *)
Record RankingData : Type := mkRankingData {
  name : string;
  games : Z;
  score : qreal;
  draws : qreal
}.

End Rank.

(** The lines [printRanking] writes, one constructor per format string. *)
Inductive line : Type :=
| EloDifferenceLine (eloDiff : qreal)
    (* "ELO difference: %.0f" *)
| HeaderLine
    (* "Rank Name ELO Games Score Draws" *)
| RowLine (rank : Z) (name : string) (elo : qreal) (games : Z)
          (score_pct draws_pct : qreal)
    (* "%4d %-25.25s %7.0f %7d %6.0f%% %6.0f%%" *)
| SprtLine (llr lBound uBound : qreal) (verdict : string).
    (* "SPRT: llr %1, lbound %2, ubound %3" followed by the verdict *)

(* ================================================================== *)
(** * [QMultiMap<qreal, RankingData>] *)
(* ================================================================== *)

(** Qt's [QMultiMap] keeps its items in ascending key order and iterates
    in that order; [insert] never replaces, and among items of equal key
    the most recently inserted one comes first (Qt documents that items
    sharing a key are "available from most recently to least recently
    inserted": the new node is linked in front of the first node whose
    key is not less than the new key).  The map is the list of its items
    in iteration order. *)
Section QMultiMap.
Context {V : Type}.

Definition QMultiMap : Type := list (qreal * V).

Fixpoint qmm_insert (k : qreal) (v : V) (m : QMultiMap) : QMultiMap :=
  match m with
  | [] => [(k, v)]
  | (k', v') :: m' =>
      if qlt k' k then (k', v') :: qmm_insert k v m'
      else (k, v) :: m
  end.

Definition qmm_isEmpty (m : QMultiMap) : bool :=
  match m with [] => true | _ => false end.

End QMultiMap.
Arguments QMultiMap : clear implicits.

(* ================================================================== *)
(** * [EngineMatch::printRanking] *)
(* ================================================================== *)

(** Lines 175-176. *)
Definition score_of (player : PlayerData) : Z :=
  wins player * 2 + draws player.

Definition total_of (player : PlayerData) : Z :=
  (wins player + losses player + draws player) * 2.

(** Line 180: [qreal(score) / qreal(total)]. *)
Definition ratio_of (player : PlayerData) : qreal :=
  qdiv (of_int (score_of player)) (of_int (total_of player)).

(** Line 181: [-400.0 * std::log(1.0 / ratio - 1.0) / std::log(10.0)]. *)
Definition eloDiff_of_ratio (ratio : qreal) : qreal :=
  qdiv (qmul (Fin (-400)) (qlog (qsub (qdiv (Fin 1) ratio) (Fin 1))))
       (qlog (Fin 10)).

Definition eloDiff_of (player : PlayerData) : qreal :=
  eloDiff_of_ratio (ratio_of player).

(** Lines 189-192. *)
Definition rankingData_of (player : PlayerData) : Rank.RankingData :=
  {| Rank.name := builder_name player;
     Rank.games := Z.quot (total_of player) 2;
     Rank.score := ratio_of player;
     Rank.draws := qdiv (of_int (draws player * 2))
                        (of_int (total_of player)) |}.

(** One evaluation of lines 180-181: the index of the player, the ratio
    and the Elo difference computed from it. *)
Record evaluation : Type := mkEvaluation {
  ev_player : nat;
  ev_ratio : qreal;
  ev_eloDiff : qreal
}.

(** The state of the first loop: the [ranking] map, the lines written so
    far and the record of the evaluations of lines 180-181. *)
Record LoopState : Type := mkLoopState {
  ranking : QMultiMap Rank.RankingData;
  printed : list line;
  evaluated : list evaluation
}.

Definition loop_init : LoopState :=
  {| ranking := []; printed := []; evaluated := [] |}.

(** Lines 171-194, from player [i] on; [rest] are the players [i],
    [i+1], ... *)
Fixpoint rankingLoop (count : Z) (i : nat) (rest : list PlayerData)
         (s : LoopState) : LoopState :=
  match rest with
  | [] => s
  | player :: rest' =>
      if total_of player <=? 0 then
        (* continue *)
        rankingLoop count (S i) rest' s
      else
        let ratio := ratio_of player in
        let eloDiff := eloDiff_of_ratio ratio in
        let ev := evaluated s ++ [mkEvaluation i ratio eloDiff] in
        if count =? 2 then
          (* break *)
          {| ranking := ranking s;
             printed := printed s ++ [EloDifferenceLine eloDiff];
             evaluated := ev |}
        else
          rankingLoop count (S i) rest'
            {| ranking := qmm_insert (qneg eloDiff) (rankingData_of player)
                                     (ranking s);
               printed := printed s;
               evaluated := ev |}
  end.

(** Lines 200-212: one row per item, in iteration order; [rank] is the
    value of the counter before the row is written. *)
Fixpoint printRows (rank : Z) (m : QMultiMap Rank.RankingData) : list line :=
  match m with
  | [] => []
  | (key, data) :: m' =>
      RowLine (rank + 1) (Rank.name data) (qneg key) (Rank.games data)
              (qmul (Rank.score data) (Fin 100))
              (qmul (Rank.draws data) (Fin 100))
      :: printRows (rank + 1) m'
  end.

(** Lines 214-229. *)
Definition printSprt (sprtStatus : Sprt.Status) : list line :=
  if qne (Sprt.llr sprtStatus) (Fin 0)
     || qne (Sprt.lBound sprtStatus) (Fin 0)
     || qne (Sprt.uBound sprtStatus) (Fin 0)
  then
    [SprtLine (Sprt.llr sprtStatus) (Sprt.lBound sprtStatus)
              (Sprt.uBound sprtStatus)
              (match Sprt.result sprtStatus with
               | Sprt.AcceptH0 => " - H0 was accepted"
               | Sprt.AcceptH1 => " - H1 was accepted"
               | Sprt.Continuing => EmptyString
               end)]
  else [].

Definition rankingLoop_of (t : Tournament) : LoopState :=
  rankingLoop (playerCount t) 0 (players t) loop_init.

(** Lines 196-212: the header, when the map is not empty, and the rows. *)
Definition printTable (m : QMultiMap Rank.RankingData) : list line :=
  (if qmm_isEmpty m then [] else [HeaderLine]) ++ printRows 0 m.

Definition printRanking (t : Tournament) : list line :=
  let s := rankingLoop_of t in
  printed s ++ printTable (ranking s) ++ printSprt (sprt_status t).

(** ** Vocabulary for the statements about [printRanking] *)

(** The player has at least one finished game: the test of line 177
    fails. *)
Definition has_games (player : PlayerData) : bool :=
  negb (total_of player <=? 0).

(** A line of the ranking table: the header or a row. *)
Definition is_table_line (l : line) : bool :=
  match l with
  | HeaderLine | RowLine _ _ _ _ _ _ => true
  | _ => false
  end.

Definition is_sprt_line (l : line) : bool :=
  match l with
  | SprtLine _ _ _ _ => true
  | _ => false
  end.

(** The counters of a player are game counts. *)
Definition counters_ok (player : PlayerData) : Prop :=
  0 <= wins player /\ 0 <= losses player /\ 0 <= draws player.

(** The insertions the loop performs when the table is built. *)
Definition insert_player (m : QMultiMap Rank.RankingData) (p : PlayerData)
  : QMultiMap Rank.RankingData :=
  qmm_insert (qneg (eloDiff_of p)) (rankingData_of p) m.

Definition is_row (l : line) : bool :=
  match l with
  | RowLine _ _ _ _ _ _ => true
  | _ => false
  end.

(** The row written for [player] at position [rank] of the table. *)
Definition row_of (rank : Z) (player : PlayerData) : line :=
  RowLine rank (builder_name player) (eloDiff_of player)
          (Z.quot (total_of player) 2)
          (qmul (ratio_of player) (Fin 100))
          (qmul (qdiv (of_int (draws player * 2)) (of_int (total_of player)))
                (Fin 100)).

(** The three numbers of the SPRT status are all zero. *)
Definition sprt_trivial (st : Sprt.Status) : Prop :=
  Sprt.llr st = Fin 0 /\ Sprt.lBound st = Fin 0 /\ Sprt.uBound st = Fin 0.

(** An SPRT status that was never started. *)
Definition sprt_off : Sprt.Status :=
  Sprt.mkStatus Sprt.Continuing (Fin 0) (Fin 0) (Fin 0).

(** A two-player match in which the first player won the only game. *)
Definition one_win_match : Tournament :=
  {| players := [mkPlayerData "A" 1 0 0; mkPlayerData "B" 0 1 0];
     finishedGameCount := 1;
     sprt_status := sprt_off;
     errorString := EmptyString |}.

(** A two-player match in which the first player lost the only game. *)
Definition one_loss_match : Tournament :=
  {| players := [mkPlayerData "A" 0 1 0; mkPlayerData "B" 1 0 0];
     finishedGameCount := 1;
     sprt_status := sprt_off;
     errorString := EmptyString |}.


(** A two-player match before its first game has finished. *)
Definition fresh_match : Tournament :=
  {| players := [mkPlayerData "A" 0 0 0; mkPlayerData "B" 0 0 0];
     finishedGameCount := 0;
     sprt_status := sprt_off;
     errorString := EmptyString |}.

(** ** The ranking with the player indices kept

    [printRanking] stores only the [RankingData] of a player in the map.
    To state in which order the players come out, the same insertions
    are replayed with the index of the player kept beside the player. *)

(** The players [i], [i+1], ... with their indices. *)
Fixpoint indexed (i : nat) (ps : list PlayerData) : list (nat * PlayerData) :=
  match ps with
  | [] => []
  | p :: ps' => (i, p) :: indexed (S i) ps'
  end.

Definition insert_indexed (m : QMultiMap (nat * PlayerData))
           (ip : nat * PlayerData) : QMultiMap (nat * PlayerData) :=
  qmm_insert (qneg (eloDiff_of (snd ip))) ip m.

Definition with_games (ip : nat * PlayerData) : bool := has_games (snd ip).

Definition ranked_from (i : nat) (ps : list PlayerData)
           (m : QMultiMap (nat * PlayerData)) : QMultiMap (nat * PlayerData) :=
  fold_left insert_indexed (List.filter with_games (indexed i ps)) m.

(** The rows of the table for the players [ps], from rank [rank] on. *)
Fixpoint rows_from (rank : Z) (ps : list PlayerData) : list line :=
  match ps with
  | [] => []
  | p :: ps' => row_of rank p :: rows_from (rank + 1) ps'
  end.

(** [before x y]: [x] may stand above [y] in the table when the Elo
    difference of [x] is greater, or when the two are equal and [x] was
    inserted after [y]. *)
Definition stands_above (x y : nat * PlayerData) : Prop :=
  qless (eloDiff_of (snd y)) (eloDiff_of (snd x)) \/
  (eloDiff_of (snd x) = eloDiff_of (snd y) /\ (fst y < fst x)%nat).

(** Three players with the same counters. *)
Definition level_match : Tournament :=
  {| players := [mkPlayerData "A" 1 1 0; mkPlayerData "B" 1 1 0;
                 mkPlayerData "C" 1 1 0];
     finishedGameCount := 3;
     sprt_status := sprt_off;
     errorString := EmptyString |}.

(** The name on a row. *)
Definition row_name (l : line) : string :=
  match l with
  | RowLine _ name _ _ _ _ => name
  | _ => EmptyString
  end.

Definition row_elo (l : line) : qreal :=
  match l with
  | RowLine _ _ elo _ _ _ => elo
  | _ => NaN
  end.

(** The order in which [QMultiMap] keeps two items: ascending keys, and
    among equal keys the item inserted later ([stamp] tells the order of
    insertion) first. *)
Definition item_order {V : Type} (stamp : V -> nat) (x y : qreal * V) : Prop :=
  qlt (fst x) (fst y) = true \/
  (fst x = fst y /\ (stamp (snd y) < stamp (snd x))%nat).

(** Forgetting the index of the player in an item of the indexed map. *)
Definition forget_index (x : qreal * (nat * PlayerData))
  : qreal * Rank.RankingData :=
  (fst x, rankingData_of (snd (snd x))).

(** What the indexed map holds while the loop is at player [i]: keys that
    are the negated Elo difference of their player and are not NaN, and
    players of index below [i]. *)
Definition item_ok (i : nat) (x : qreal * (nat * PlayerData)) : Prop :=
  is_nan (fst x) = false /\ (fst (snd x) < i)%nat /\
  fst x = qneg (eloDiff_of (snd (snd x))).

(** The scenario of the specification: A wins 6, draws 2 and loses 2 of
    the 10 games of a two-player match. *)
Definition playerA : PlayerData := mkPlayerData "A" 6 2 2.

Definition scenario_match : Tournament :=
  {| players := [playerA; mkPlayerData "B" 2 6 2];
     finishedGameCount := 10;
     sprt_status := sprt_off;
     errorString := EmptyString |}.

(** A match whose SPRT has accepted H1. *)
Definition decided_match : Tournament :=
  {| players := [mkPlayerData "A" 1 0 0; mkPlayerData "B" 0 1 0];
     finishedGameCount := 1;
     sprt_status := Sprt.mkStatus Sprt.AcceptH1 (Fin 3) (Fin (-2)) (Fin 2);
     errorString := EmptyString |}.

(** A three-player tournament in which only the first game, A against
    B, has finished. *)
Definition started_tournament : Tournament :=
  {| players := [mkPlayerData "A" 1 0 0; mkPlayerData "B" 0 1 0;
                 mkPlayerData "C" 0 0 0];
     finishedGameCount := 1;
     sprt_status := sprt_off;
     errorString := EmptyString |}.

(* ================================================================== *)
(** * [EngineMatch]: its members *)
(* ================================================================== *)

(** An [OpeningBook*] that is not null is the address of the book; the
    null pointer is [None]. *)
Definition OpeningBookPtr : Type := option nat.

(** The members of [EngineMatch] that the modelled functions use, and
    [next_book], the address that the next [new PolyglotBook] returns
    (a book kept in [m_books] is never deleted before the match is, so
    its address is not handed out again). *)
Record EngineMatch : Type := mkEngineMatch {
  m_books : gmap string nat;
  m_debug : bool;
  m_ratingInterval : Z;
  next_book : nat
}.

(** The constructor: no book, [m_debug(false)], [m_ratingInterval(0)]. *)
Definition EngineMatch_new : EngineMatch :=
  {| m_books := ∅; m_debug := false; m_ratingInterval := 0; next_book := 1 |}.

Definition setRatingInterval (interval : Z) (em : EngineMatch) : EngineMatch :=
  {| m_books := m_books em; m_debug := m_debug em;
     m_ratingInterval := interval; next_book := next_book em |}.

(* ================================================================== *)
(** * [EngineMatch::addOpeningBook] *)
(* ================================================================== *)

(** What a call does besides returning: it reads a file
    ([PolyglotBook::read]) and it writes a warning ([qWarning]). *)
Inductive effect : Type :=
| ReadFile (fileName : string)
| CantReadWarning (fileName : string).
    (* "Can't read opening book file %s" *)

Definition isEmpty (s : string) : bool :=
  match s with
  | EmptyString => true
  | String _ _ => false
  end.

(** Lines 46-64.  [read fileName] tells whether [PolyglotBook::read]
    succeeds on the file at the time of the call. *)
Definition addOpeningBook (read : string -> bool) (fileName : string)
           (em : EngineMatch) : OpeningBookPtr * EngineMatch * list effect :=
  if isEmpty fileName then (None, em, [])
  else
    match m_books em !! fileName with
    | Some book => (Some book, em, [])
    | None =>
        let book := next_book em in
        if negb (read fileName) then
          (* delete book *)
          (None, em, [ReadFile fileName; CantReadWarning fileName])
        else
          (Some book,
           {| m_books := <[fileName := book]> (m_books em);
              m_debug := m_debug em;
              m_ratingInterval := m_ratingInterval em;
              next_book := S book |},
           [ReadFile fileName])
    end.

(** A call of [addOpeningBook]: the state of the files when it is made,
    and the file name. *)
Definition book_call : Type := (string -> bool) * string.

(** A sequence of calls: the final state and everything the calls did. *)
Fixpoint addOpeningBooks (calls : list book_call) (em : EngineMatch)
  : EngineMatch * list effect :=
  match calls with
  | [] => (em, [])
  | (read, fileName) :: calls' =>
      let '(_, em', effects) := addOpeningBook read fileName em in
      let '(em'', effects') := addOpeningBooks calls' em' in
      (em'', effects ++ effects')
  end.

(** No file can be read. *)
Definition unreadable : string -> bool := fun _ => false.

(** Every file can be read. *)
Definition readable : string -> bool := fun _ => true.

(* ================================================================== *)
(** * [onGameFinished] and [onTournamentFinished] *)
(* ================================================================== *)

(** What the two slots read from a [ChessGame]: the names of the two
    players and the verbose text of the result. *)
Record ChessGame : Type := mkChessGame {
  white_name : string;
  black_name : string;
  result_text : string
}.

(** What the two slots write: one constructor per [qDebug] / [qWarning]
    call, and [Ranking] for one call of [printRanking] with the lines it
    wrote. *)
Inductive report : Type :=
| FinishedGame (number : Z) (white black result : string)
    (* "Finished game %d (%s vs %s): %s" *)
| Score (fcp scp : string) (fcp_wins scp_wins fcp_draws : Z)
        (ratio : qreal) (totalResults : Z)
    (* "Score of %s vs %s: %d - %d - %d  [%.3f] %d" *)
| Ranking (lines : list line)
| Warning (text : string)
| FinishedMatch.
    (* "Finished match" *)

(** Lines 109-136. *)
Definition onGameFinished (em : EngineMatch) (t : Tournament)
           (game : ChessGame) (number : Z) : list report :=
  [FinishedGame number (white_name game) (black_name game) (result_text game)]
  ++ (if playerCount t =? 2 then
        match playerAt t 0, playerAt t 1 with
        | Some fcp, Some scp =>
            let totalResults := wins fcp + losses fcp + draws fcp in
            [Score (builder_name fcp) (builder_name scp)
                   (wins fcp) (wins scp) (draws fcp)
                   (qdiv (of_int (wins fcp * 2 + draws fcp))
                         (of_int (totalResults * 2)))
                   totalResults]
        | _, _ => []
        end
      else [])
  ++ (if negb (m_ratingInterval em =? 0)
         && (Z.rem (finishedGameCount t) (m_ratingInterval em) =? 0)
      then [Ranking (printRanking t)]
      else []).

(** Lines 138-152 (the connection of the [finished] signal and
    [gameManager()->finish()] write nothing). *)
Definition onTournamentFinished (em : EngineMatch) (t : Tournament)
  : list report :=
  (if (m_ratingInterval em =? 0)
      || negb (Z.rem (finishedGameCount t) (m_ratingInterval em) =? 0)
   then [Ranking (printRanking t)]
   else [])
  ++ (if isEmpty (errorString t) then [] else [Warning (errorString t)])
  ++ [FinishedMatch].

Definition is_ranking (x : report) : bool :=
  match x with
  | Ranking _ => true
  | _ => false
  end.

(** How many times [printRanking] was called. *)
Definition ranking_prints (out : list report) : nat :=
  length (List.filter is_ranking out).

(** One [gameFinished] signal: the game, its number, and the state of
    the tournament when the slot runs. *)
Record finished_game : Type := mkFinishedGame {
  fg_game : ChessGame;
  fg_number : Z;
  fg_tournament : Tournament
}.

(** A tournament run as [EngineMatch] sees it: the [gameFinished]
    signals in the order they arrive, then the [finished] signal. *)
Definition match_reports (em : EngineMatch) (games : list finished_game)
           (final : Tournament) : list report :=
  flat_map (fun g => onGameFinished em (fg_tournament g) (fg_game g)
                                    (fg_number g)) games
  ++ onTournamentFinished em final.

(** The tournament counts a finished game before it signals it: the
    [k]-th signal (from 1) sees [finishedGameCount = k], and the
    [finished] signal sees the number of finished games. *)
Definition counts_in_order (games : list finished_game) (final : Tournament)
  : Prop :=
  map (fun g => finishedGameCount (fg_tournament g)) games =
  map Z.of_nat (seq 1 (length games)) /\
  finishedGameCount final = Z.of_nat (length games).

(** The positions (from [k]) in the run of the games after which the
    ranking was printed. *)
Fixpoint games_with_ranking (em : EngineMatch) (k : Z)
         (games : list finished_game) : list Z :=
  match games with
  | [] => []
  | g :: games' =>
      (if (0 <? ranking_prints (onGameFinished em (fg_tournament g)
                                               (fg_game g) (fg_number g)))%nat
       then [k] else [])
      ++ games_with_ranking em (k + 1) games'
  end.

(** [k] is a multiple of the interval [r], for a positive [r]. *)
Definition multiple_of (r k : Z) : bool := (0 <? r) && (k mod r =? 0).

(** The game numbers 1, ..., [n]. *)
Definition first_games (n : nat) : list Z := map Z.of_nat (seq 1 n).

(** The scenario of the specification: a rating interval of 5 and 12
    finished games (here all drawn, between two players). *)
Definition tournament_after (k : Z) : Tournament :=
  {| players := [mkPlayerData "A" 0 0 k; mkPlayerData "B" 0 0 k];
     finishedGameCount := k;
     sprt_status := sprt_off;
     errorString := EmptyString |}.

Definition twelve_games : list finished_game :=
  map (fun k => mkFinishedGame (mkChessGame "A" "B" "1/2-1/2") k
                               (tournament_after k))
      (first_games 12).

Definition interval_five : EngineMatch := setRatingInterval 5 EngineMatch_new.

(* ================================================================== *)
(** * The sequential tester *)
(* ================================================================== *)

Module SequentialTester.

(** Modelled from the spec: the outcome of a finished game for the
    first player (decisive or drawn), as the tester consumes it. *)
Inductive Outcome : Type := Win | Loss | Draw.

(** Modelled from the spec: the state of the test ([Sprt]'s own source
    is not among the sources), the cumulative log-likelihood ratio, the
    two bounds and the verdict. *)
Record State : Type := mkState {
  llr : R;
  lowerBound : R;
  upperBound : R;
  verdict : Sprt.Result
}.

(** Modelled from the spec: the bounds from the two error rates,
    [ln(beta / (1 - alpha))] and [ln((1 - beta) / alpha)]. *)
Definition lower_bound (alpha beta : R) : R := ln (beta / (1 - alpha)).

(** Modelled from the spec: the upper bound. *)
Definition upper_bound (alpha beta : R) : R := ln ((1 - beta) / alpha).

(** Modelled from the spec: the test before the first game. *)
Definition start (alpha beta : R) : State :=
  {| llr := 0;
     lowerBound := lower_bound alpha beta;
     upperBound := upper_bound alpha beta;
     verdict := Sprt.Continuing |}.

(** Modelled from the spec: the verdict that a log-likelihood ratio
    calls for, [AcceptH0] at or below the lower bound, [AcceptH1] at or
    above the upper bound. *)
Definition verdict_for (l lower upper : R) : Sprt.Result :=
  if Rle_dec l lower then Sprt.AcceptH0
  else if Rle_dec upper l then Sprt.AcceptH1
  else Sprt.Continuing.

(** Modelled from the spec: the update of the sequential tester by one
    finished game ([Sprt]'s own source is not among the sources; only
    the [Sprt::Status] that [printRanking] reads is).  The game adds its
    log-likelihood ratio under the two hypotheses, [step outcome], to
    the cumulative ratio; then [llr <= lowerBound] gives [AcceptH0],
    [llr >= upperBound] gives [AcceptH1], otherwise the test continues;
    and the verdict is sticky: once it is [AcceptH0] or [AcceptH1] it is
    kept. *)
Definition update (step : Outcome -> R) (st : State) (outcome : Outcome)
  : State :=
  let l := (llr st + step outcome)%R in
  {| llr := l;
     lowerBound := lowerBound st;
     upperBound := upperBound st;
     verdict := match verdict st with
                | Sprt.Continuing =>
                    verdict_for l (lowerBound st) (upperBound st)
                | accepted => accepted
                end |}.

(** The updates by a sequence of finished games, in the order in which
    they finish. *)
Definition updates (step : Outcome -> R) (st : State)
           (outcomes : list Outcome) : State :=
  fold_left (update step) outcomes st.

(** A test that has accepted H1, and a step of one unit per decisive
    game. *)
Definition accepted_H1 : State :=
  {| llr := 3; lowerBound := -2; upperBound := 2;
     verdict := Sprt.AcceptH1 |}.

Definition unit_step (outcome : Outcome) : R :=
  match outcome with
  | Win => 1
  | Loss => -1
  | Draw => 0
  end.

End SequentialTester.

(* ================================================================== *)
(** * Further vocabulary *)
(* ================================================================== *)

(** The Elo difference, where it is written on a line. *)
Definition elo_on (l : line) : option qreal :=
  match l with
  | EloDifferenceLine e => Some e
  | RowLine _ _ e _ _ _ => Some e
  | _ => None
  end.

Definition row_rank (l : line) : Z :=
  match l with
  | RowLine rank _ _ _ _ _ => rank
  | _ => 0
  end.

Definition is_header (l : line) : bool :=
  match l with
  | HeaderLine => true
  | _ => false
  end.

(* ================================================================== *)
(** * The rest of [EngineMatch] *)
(* ================================================================== *)

(** Lines 41-44, the destructor: [qDeleteAll(m_books)] deletes every
    book of the cache.  The list holds the deleted books; the order of
    the deletions is not modelled. *)
Definition EngineMatch_delete (em : EngineMatch) : list nat :=
  (map_to_list (m_books em)).*2.

(** Lines 87-90. *)
Definition setDebugMode (debug : bool) (em : EngineMatch) : EngineMatch :=
  {| m_books := m_books em; m_debug := debug;
     m_ratingInterval := m_ratingInterval em; next_book := next_book em |}.

(** The books that a sequence of calls of [addOpeningBook] returned (the
    null results left out), in the order of the calls. *)
Fixpoint returned_books (calls : list book_call) (em : EngineMatch)
  : list nat :=
  match calls with
  | [] => []
  | (read, fileName) :: calls' =>
      let '(book, em', _) := addOpeningBook read fileName em in
      match book with
      | Some b => b :: returned_books calls' em'
      | None => returned_books calls' em'
      end
  end.

(** What holds of the cache of a match at any time: the empty name is
    not in it, its books are live objects (not null, allocated before
    [next_book]), two names never share a book, and every book allocated
    so far and not deleted is in it. *)
Definition cache_ok (em : EngineMatch) : Prop :=
  m_books em !! EmptyString = None /\
  (forall (f : string) (b : nat),
     m_books em !! f = Some b -> (1 <= b < next_book em)%nat) /\
  (forall (f1 f2 : string) (b : nat),
     m_books em !! f1 = Some b -> m_books em !! f2 = Some b -> f1 = f2) /\
  next_book em = S (size (m_books em)).

Definition is_read (e : effect) : bool :=
  match e with
  | ReadFile _ => true
  | CantReadWarning _ => false
  end.

Definition is_warning (e : effect) : bool :=
  match e with
  | ReadFile _ => false
  | CantReadWarning _ => true
  end.

(** Every warning comes right after the read of the same file. *)
Fixpoint warnings_follow_reads (effects : list effect) : bool :=
  match effects with
  | [] => true
  | ReadFile f :: rest =>
      match rest with
      | CantReadWarning g :: rest' =>
          String.eqb f g && warnings_follow_reads rest'
      | _ => warnings_follow_reads rest
      end
  | CantReadWarning _ :: _ => false
  end.

(** The game numbers on the "Finished game" lines, in order. *)
Definition finished_numbers (out : list report) : list Z :=
  flat_map (fun x => match x with
                     | FinishedGame number _ _ _ => [number]
                     | _ => []
                     end) out.

(** The texts of the warnings, in order. *)
Definition warning_texts (out : list report) : list string :=
  flat_map (fun x => match x with
                     | Warning text => [text]
                     | _ => []
                     end) out.

Definition is_finished_match (x : report) : bool :=
  match x with
  | FinishedMatch => true
  | _ => false
  end.

Definition is_score (x : report) : bool :=
  match x with
  | Score _ _ _ _ _ _ _ => true
  | _ => false
  end.

(* ================================================================== *)
(** * Signals and slots: [start], [stop], [onGameStarted], [print] *)
(* ================================================================== *)

(** The signals that [EngineMatch] connects to, with the arguments that
    its slots take from them. *)
Inductive signal : Type :=
| TournamentFinished
    (* Tournament::finished() *)
| GameStarted (game : ChessGame) (number : Z)
    (* Tournament::gameStarted(ChessGame*, int, int, int) *)
| GameFinished (game : ChessGame) (number : Z)
    (* Tournament::gameFinished(ChessGame*, int, int, int) *)
| DebugMessage (msg : string)
    (* GameManager::debugMessage(QString) *)
| GameManagerFinished.
    (* GameManager::finished() *)

Inductive signal_name : Type :=
| SigFinished | SigGameStarted | SigGameFinished | SigDebugMessage
| SigGameManagerFinished.

Definition name_of (sig : signal) : signal_name :=
  match sig with
  | TournamentFinished => SigFinished
  | GameStarted _ _ => SigGameStarted
  | GameFinished _ _ => SigGameFinished
  | DebugMessage _ => SigDebugMessage
  | GameManagerFinished => SigGameManagerFinished
  end.

Definition signal_name_eqb (a b : signal_name) : bool :=
  match a, b with
  | SigFinished, SigFinished
  | SigGameStarted, SigGameStarted
  | SigGameFinished, SigGameFinished
  | SigDebugMessage, SigDebugMessage
  | SigGameManagerFinished, SigGameManagerFinished => true
  | _, _ => false
  end.

(** The receivers of the connections: the four slots, and the signal
    [finished] of [EngineMatch] itself (line 149 connects a signal to
    it). *)
Inductive slot : Type :=
| SlotOnTournamentFinished
| SlotOnGameStarted
| SlotOnGameFinished
| SlotPrint
| SignalFinished.

Definition connection : Type := signal_name * slot.

(** What the object does when a function or a slot of it runs. *)
Inductive action : Type :=
| Say (r : report)
| SayStarted (number finalGameCount : Z) (white black : string)
    (* "Started game %d of %d (%s vs %s)" *)
| SayDebug (elapsed : Z) (msg : string)
    (* "%lld %s" *)
| Invoke (method : string)
    (* QMetaObject::invokeMethod(m_tournament, method, Qt::QueuedConnection) *)
| FinishGameManager
    (* m_tournament->gameManager()->finish() *)
| EmitFinished.
    (* the signal finished() of EngineMatch *)

(** What a slot reads from outside when it runs: the tournament, its
    [finalGameCount], and the milliseconds elapsed since the match was
    created ([m_startTime.elapsed()]). *)
Record moment : Type := mkMoment {
  tournament : Tournament;
  finalGameCount : Z;
  elapsed : Z
}.

(** An [EngineMatch] object: its members and the connections made to
    it, in the order in which they were made. *)
Record MatchObject : Type := mkMatchObject {
  members : EngineMatch;
  connections : list connection
}.

(** A new [EngineMatch] with these members: nothing is connected. *)
Definition new_object (em : EngineMatch) : MatchObject :=
  {| members := em; connections := [] |}.

(** Lines 66-80. *)
Definition start (obj : MatchObject) : MatchObject * list action :=
  ({| members := members obj;
      connections :=
        connections obj
        ++ [(SigFinished, SlotOnTournamentFinished);
            (SigGameStarted, SlotOnGameStarted);
            (SigGameFinished, SlotOnGameFinished)]
        ++ (if m_debug (members obj) then [(SigDebugMessage, SlotPrint)]
            else []) |},
   [Invoke "start"]).

(** Lines 82-85. *)
Definition stop (obj : MatchObject) : MatchObject * list action :=
  (obj, [Invoke "stop"]).

(** [setDebugMode] on the object. *)
Definition set_debug (debug : bool) (obj : MatchObject) : MatchObject :=
  {| members := setDebugMode debug (members obj);
     connections := connections obj |}.

(** Lines 98-107. *)
Definition onGameStarted (w : moment) (game : ChessGame) (number : Z)
  : list action :=
  [SayStarted number (finalGameCount w) (white_name game) (black_name game)].

(** Lines 154-157. *)
Definition print (w : moment) (msg : string) : list action :=
  [SayDebug (elapsed w) msg].

(** One receiver run for a signal.  Lines 138-152 for
    [onTournamentFinished]: what it writes, then the connection of
    [GameManager::finished] to the signal [finished], then
    [finish()]. *)
Definition run_slot (s : slot) (sig : signal) (w : moment) (obj : MatchObject)
  : MatchObject * list action :=
  match s, sig with
  | SlotOnTournamentFinished, TournamentFinished =>
      ({| members := members obj;
          connections := connections obj
                         ++ [(SigGameManagerFinished, SignalFinished)] |},
       map Say (onTournamentFinished (members obj) (tournament w))
       ++ [FinishGameManager])
  | SlotOnGameStarted, GameStarted game number =>
      (obj, onGameStarted w game number)
  | SlotOnGameFinished, GameFinished game number =>
      (obj, map Say (onGameFinished (members obj) (tournament w) game number))
  | SlotPrint, DebugMessage msg => (obj, print w msg)
  | SignalFinished, GameManagerFinished => (obj, [EmitFinished])
  | _, _ => (obj, [])
  end.

Fixpoint run_slots (slots : list slot) (sig : signal) (w : moment)
         (obj : MatchObject) : MatchObject * list action :=
  match slots with
  | [] => (obj, [])
  | s :: slots' =>
      let '(obj', actions) := run_slot s sig w obj in
      let '(obj'', actions') := run_slots slots' sig w obj' in
      (obj'', actions ++ actions')
  end.

(** The receivers connected to a signal, in the order of connection. *)
Definition receivers (name : signal_name) (cs : list connection) : list slot :=
  map snd (List.filter (fun c => signal_name_eqb (fst c) name) cs).

(** The emission of a signal: Qt runs the receivers connected to it
    when it is emitted, one after the other in the order in which the
    connections were made, once for each connection. *)
Definition deliver (sig : signal) (w : moment) (obj : MatchObject)
  : MatchObject * list action :=
  run_slots (receivers (name_of sig) (connections obj)) sig w obj.

(** [start] called [n] times. *)
Fixpoint started (n : nat) (obj : MatchObject) : MatchObject :=
  match n with
  | O => obj
  | S n' => (start (started n' obj)).1
  end.

(** [n] copies of a list of actions, one after the other. *)
Fixpoint copies {A : Type} (n : nat) (l : list A) : list A :=
  match n with
  | O => []
  | S n' => l ++ copies n' l
  end.

(* ================================================================== *)
(** * Facts about [qreal] *)
(* ================================================================== *)

Ltac order_cases :=
  repeat match goal with
  | |- context [total_order_T ?a ?b] =>
      destruct (total_order_T a b) as [[?|?]|?]
  | |- context [Rlt_dec ?a ?b] => destruct (Rlt_dec a b)
  | |- context [Req_dec_T ?a ?b] => destruct (Req_dec_T a b)
  end.

Lemma signed_inf_pos (x : R) : (0 < x)%R -> signed_inf x = PInf.
Proof. intros Hx. unfold signed_inf. order_cases; trivial; lra. Qed.

Lemma signed_inf_neg (x : R) : (x < 0)%R -> signed_inf x = NInf.
Proof. intros Hx. unfold signed_inf. order_cases; trivial; lra. Qed.

Lemma ln_10_pos : (0 < ln 10)%R.
Proof. rewrite <- ln_1. apply ln_increasing; lra. Qed.

Lemma qlog_10 : qlog (Fin 10) = Fin (ln 10).
Proof. unfold qlog. order_cases; trivial; lra. Qed.

Lemma qdiv_fin (a b : R) : b <> 0%R -> qdiv (Fin a) (Fin b) = Fin (a / b).
Proof. intros Hb. unfold qdiv. order_cases; trivial; contradiction. Qed.

Lemma qlog_fin_pos (a : R) : (0 < a)%R -> qlog (Fin a) = Fin (ln a).
Proof. intros Ha. unfold qlog. order_cases; trivial; lra. Qed.

Lemma qlt_irrefl (x : qreal) : qlt x x = false.
Proof. destruct x; simpl; trivial. order_cases; trivial; lra. Qed.

Lemma qneg_involutive (x : qreal) : qneg (qneg x) = x.
Proof. destruct x; simpl; trivial. f_equal; lra. Qed.

(** The formula of line 181 at the two ends of the ratio scale. *)
Lemma eloDiff_ratio_0 : eloDiff_of_ratio (Fin 0) = NInf.
Proof.
  unfold eloDiff_of_ratio. rewrite qlog_10.
  replace (qdiv (Fin 1) (Fin 0)) with PInf.
  - simpl. rewrite signed_inf_neg by lra.
    simpl. pose proof ln_10_pos. order_cases; trivial; lra.
  - unfold qdiv. order_cases; try lra. now rewrite signed_inf_pos by lra.
Qed.

Lemma eloDiff_ratio_1 : eloDiff_of_ratio (Fin 1) = PInf.
Proof.
  unfold eloDiff_of_ratio. rewrite qlog_10.
  rewrite qdiv_fin by lra.
  replace (qsub (Fin (1 / 1)) (Fin 1)) with (Fin 0)
    by (simpl; f_equal; lra).
  replace (qlog (Fin 0)) with NInf
    by (unfold qlog; order_cases; trivial; lra).
  simpl. rewrite signed_inf_pos by lra.
  simpl. pose proof ln_10_pos. order_cases; trivial; lra.
Qed.

(* ================================================================== *)
(** * The first loop of [printRanking] *)
(* ================================================================== *)

Lemma has_games_true (p : PlayerData) : has_games p = true <-> 0 < total_of p.
Proof.
  unfold has_games. destruct (Z.leb_spec (total_of p) 0); simpl;
    split; intros; (lia || discriminate || trivial).
Qed.

Lemma has_games_false (p : PlayerData) :
  has_games p = false <-> total_of p <= 0.
Proof.
  unfold has_games. destruct (Z.leb_spec (total_of p) 0); simpl;
    split; intros; (lia || discriminate || trivial).
Qed.

Lemma no_games_total (p : PlayerData) :
  wins p + losses p + draws p = 0 -> has_games p = false.
Proof. intros H. apply has_games_false. unfold total_of. lia. Qed.

Lemma rankingLoop_cons (count : Z) (i : nat) (p : PlayerData)
      (rest : list PlayerData) (s : LoopState) :
  rankingLoop count i (p :: rest) s =
  if has_games p then
    if count =? 2 then
      {| ranking := ranking s;
         printed := printed s ++ [EloDifferenceLine (eloDiff_of p)];
         evaluated :=
           evaluated s ++ [mkEvaluation i (ratio_of p) (eloDiff_of p)] |}
    else
      rankingLoop count (S i) rest
        {| ranking := insert_player (ranking s) p;
           printed := printed s;
           evaluated :=
             evaluated s ++ [mkEvaluation i (ratio_of p) (eloDiff_of p)] |}
  else rankingLoop count (S i) rest s.
Proof.
  simpl. unfold has_games. now destruct (total_of p <=? 0).
Qed.

Lemma ranking_two_players (i : nat) (ps : list PlayerData) (s : LoopState) :
  ranking (rankingLoop 2 i ps s) = ranking s.
Proof.
  revert i s. induction ps as [|p ps IH]; intros i s; trivial.
  rewrite rankingLoop_cons. destruct (has_games p); simpl; auto.
Qed.

Lemma ranking_table (count : Z) (i : nat) (ps : list PlayerData)
      (s : LoopState) :
  count <> 2 ->
  ranking (rankingLoop count i ps s) =
  fold_left insert_player (List.filter has_games ps) (ranking s).
Proof.
  intros Hc. apply Z.eqb_neq in Hc.
  revert i s. induction ps as [|p ps IH]; intros i s; trivial.
  rewrite rankingLoop_cons. simpl List.filter.
  destruct (has_games p); rewrite ?Hc; rewrite IH; reflexivity.
Qed.

Lemma printed_table (count : Z) (i : nat) (ps : list PlayerData)
      (s : LoopState) :
  count <> 2 -> printed (rankingLoop count i ps s) = printed s.
Proof.
  intros Hc. apply Z.eqb_neq in Hc.
  revert i s. induction ps as [|p ps IH]; intros i s; trivial.
  rewrite rankingLoop_cons.
  destruct (has_games p); rewrite ?Hc; rewrite IH; reflexivity.
Qed.

Lemma rankingLoop_no_games (count : Z) (i : nat) (ps : list PlayerData)
      (s : LoopState) :
  forallb (fun p => negb (has_games p)) ps = true ->
  rankingLoop count i ps s = s.
Proof.
  revert i. induction ps as [|p ps IH]; intros i H; trivial.
  simpl in H. apply andb_prop in H as [Hp Hps].
  rewrite rankingLoop_cons. apply negb_true_iff in Hp. rewrite Hp. auto.
Qed.

(** Every evaluation of lines 180-181 is for a player with a finished
    game, at that player's index. *)
Lemma evaluated_sound (count : Z) (ps : list PlayerData) :
  forall (i : nat) (s : LoopState) (e : evaluation),
  In e (evaluated (rankingLoop count i ps s)) ->
  In e (evaluated s) \/
  exists (k : nat) (p : PlayerData),
    nth_error ps k = Some p /\ has_games p = true /\
    e = mkEvaluation (i + k) (ratio_of p) (eloDiff_of p).
Proof.
  induction ps as [|p ps IH]; intros i s e He; [now left|].
  rewrite rankingLoop_cons in He.
  destruct (has_games p) eqn:Hp.
  - assert (Hhere : In e (evaluated s ++
                          [mkEvaluation i (ratio_of p) (eloDiff_of p)]) ->
                    In e (evaluated s) \/
                    exists k q, nth_error (p :: ps) k = Some q /\
                      has_games q = true /\
                      e = mkEvaluation (i + k)%nat (ratio_of q) (eloDiff_of q)).
    { intros Hin. apply in_app_or in Hin as [Hin|[<-|[]]]; [now left|].
      right. exists 0%nat, p. rewrite Nat.add_0_r. auto. }
    destruct (count =? 2); [now apply Hhere|].
    apply IH in He as [He|(k & q & Hk & Hq & ->)]; [now apply Hhere|].
    right. exists (S k), q. rewrite Nat.add_succ_r. auto.
  - apply IH in He as [He|(k & q & Hk & Hq & ->)]; [now left|].
    right. exists (S k), q. rewrite Nat.add_succ_r. auto.
Qed.

Lemma evaluated_mono (count : Z) (ps : list PlayerData) :
  forall (i : nat) (s : LoopState) (e : evaluation),
  In e (evaluated s) -> In e (evaluated (rankingLoop count i ps s)).
Proof.
  induction ps as [|p ps IH]; intros i s e He; trivial.
  rewrite rankingLoop_cons.
  destruct (has_games p); [destruct (count =? 2)|]; simpl.
  - apply in_or_app. now left.
  - apply IH. simpl. apply in_or_app. now left.
  - now apply IH.
Qed.

(** When the table is built, every player with a finished game is
    evaluated. *)
Lemma evaluated_table (count : Z) (ps : list PlayerData) :
  count <> 2 ->
  forall (i : nat) (s : LoopState) (k : nat) (p : PlayerData),
  nth_error ps k = Some p -> has_games p = true ->
  In (mkEvaluation (i + k) (ratio_of p) (eloDiff_of p))
     (evaluated (rankingLoop count i ps s)).
Proof.
  intros Hc. apply Z.eqb_neq in Hc.
  induction ps as [|q ps IH]; intros i s k p Hk Hp; [now destruct k|].
  rewrite rankingLoop_cons. destruct k as [|k]; simpl in Hk.
  - injection Hk as ->. rewrite Hp, Hc, Nat.add_0_r.
    apply evaluated_mono. simpl. apply in_or_app. right. now left.
  - rewrite Nat.add_succ_r.
    destruct (has_games q); rewrite ?Hc; now apply (IH (S i)).
Qed.

(** With two players, the first player with a finished game is
    evaluated (and the loop stops there). *)
Lemma evaluated_two_players (ps : list PlayerData) :
  forall (i : nat) (s : LoopState) (k : nat) (p : PlayerData),
  nth_error ps k = Some p -> has_games p = true ->
  (forall (j : nat) (q : PlayerData),
     (j < k)%nat -> nth_error ps j = Some q -> has_games q = false) ->
  rankingLoop 2 i ps s =
  {| ranking := ranking s;
     printed := printed s ++ [EloDifferenceLine (eloDiff_of p)];
     evaluated :=
       evaluated s ++ [mkEvaluation (i + k) (ratio_of p) (eloDiff_of p)] |}.
Proof.
  induction ps as [|q ps IH]; intros i s k p Hk Hp Hbefore;
    [now destruct k|].
  rewrite rankingLoop_cons. destruct k as [|k]; simpl in Hk.
  - injection Hk as ->. now rewrite Hp, Nat.add_0_r.
  - rewrite (Hbefore 0%nat q) by (trivial; lia).
    rewrite Nat.add_succ_r. apply (IH (S i)); trivial.
    intros j r Hj Hr. apply (Hbefore (S j) r); trivial. lia.
Qed.

Lemma printed_shape (count : Z) (ps : list PlayerData) :
  forall (i : nat) (s : LoopState),
  printed (rankingLoop count i ps s) = printed s \/
  exists e : qreal,
    printed (rankingLoop count i ps s) = printed s ++ [EloDifferenceLine e].
Proof.
  induction ps as [|p ps IH]; intros i s; [now left|].
  rewrite rankingLoop_cons.
  destruct (has_games p); [destruct (count =? 2)|]; simpl.
  - right. now eexists.
  - apply (IH (S i)
              {| ranking := insert_player (ranking s) p;
                 printed := printed s;
                 evaluated := evaluated s ++
                   [mkEvaluation i (ratio_of p) (eloDiff_of p)] |}).
  - apply IH.
Qed.

(* ================================================================== *)
(** * The table and the SPRT line *)
(* ================================================================== *)

Lemma printRows_not_sprt (m : QMultiMap Rank.RankingData) :
  forall rank : Z, List.filter is_sprt_line (printRows rank m) = [].
Proof.
  induction m as [|[k d] m IH]; intros rank; simpl; auto.
Qed.

Lemma printRows_rows (m : QMultiMap Rank.RankingData) :
  forall rank : Z, List.filter is_row (printRows rank m) = printRows rank m.
Proof.
  induction m as [|[k d] m IH]; intros rank; simpl; trivial.
  now rewrite IH.
Qed.

Lemma printTable_not_sprt (m : QMultiMap Rank.RankingData) :
  List.filter is_sprt_line (printTable m) = [].
Proof.
  unfold printTable. rewrite List.filter_app, printRows_not_sprt.
  now destruct m.
Qed.

Lemma printTable_rows (m : QMultiMap Rank.RankingData) :
  List.filter is_row (printTable m) = printRows 0 m.
Proof.
  unfold printTable. rewrite List.filter_app, printRows_rows.
  now destruct m.
Qed.

Lemma printSprt_sprt (st : Sprt.Status) :
  List.filter is_sprt_line (printSprt st) = printSprt st.
Proof. unfold printSprt. now destruct (_ || _). Qed.

Lemma printSprt_no_rows (st : Sprt.Status) :
  List.filter is_row (printSprt st) = [].
Proof. unfold printSprt. now destruct (_ || _). Qed.

Lemma printSprt_no_table (st : Sprt.Status) (l : line) :
  In l (printSprt st) -> is_table_line l = false.
Proof.
  unfold printSprt. destruct (_ || _); simpl; [|tauto].
  now intros [<-|[]].
Qed.

Lemma printed_of_loop (t : Tournament) :
  printed (rankingLoop_of t) = [] \/
  exists e : qreal, printed (rankingLoop_of t) = [EloDifferenceLine e].
Proof. apply (printed_shape (playerCount t) (players t) 0 loop_init). Qed.

Lemma qne_zero_false (x : qreal) : qne x (Fin 0) = false <-> x = Fin 0.
Proof.
  destruct x as [a| | |]; simpl; try (split; discriminate).
  destruct (Req_dec_T a 0) as [->|Ha]; split; trivial; try discriminate.
  intros [= ->]. contradiction.
Qed.

Lemma sprt_trivial_spec (st : Sprt.Status) :
  qne (Sprt.llr st) (Fin 0) || qne (Sprt.lBound st) (Fin 0)
  || qne (Sprt.uBound st) (Fin 0) = false <-> sprt_trivial st.
Proof.
  unfold sprt_trivial. rewrite !orb_false_iff, !qne_zero_false. tauto.
Qed.

(* ================================================================== *)
(** * The order of [qreal] away from NaN *)
(* ================================================================== *)

Lemma qlt_trans (x y z : qreal) :
  qlt x y = true -> qlt y z = true -> qlt x z = true.
Proof.
  destruct x as [a| | |], y as [b| | |], z as [c| | |]; simpl;
    trivial; try discriminate.
  order_cases; trivial; try discriminate. lra.
Qed.

Lemma qlt_total (x y : qreal) :
  is_nan x = false -> is_nan y = false ->
  qlt x y = true \/ x = y \/ qlt y x = true.
Proof.
  destruct x as [a| | |], y as [b| | |]; simpl;
    intros; try discriminate; auto.
  destruct (total_order_T a b) as [[Hab|Hab]|Hab].
  - left. order_cases; trivial; lra.
  - right. left. now subst.
  - right. right. order_cases; trivial; lra.
Qed.

Lemma qlt_qneg (x y : qreal) : qlt (qneg x) (qneg y) = qlt y x.
Proof.
  destruct x as [a| | |], y as [b| | |]; simpl; trivial.
  order_cases; trivial; lra.
Qed.

Lemma qneg_nan (x : qreal) : is_nan (qneg x) = is_nan x.
Proof. now destruct x. Qed.

Lemma qneg_inj (x y : qreal) : qneg x = qneg y -> x = y.
Proof. intros H. rewrite <- (qneg_involutive x), H. apply qneg_involutive. Qed.

(* ================================================================== *)
(** * [QMultiMap::insert] *)
(* ================================================================== *)

Section QMultiMapFacts.
Context {V : Type}.
Implicit Types (k : qreal) (v : V) (m : QMultiMap V).

Lemma qmm_insert_perm k v m : Permutation (qmm_insert k v m) ((k, v) :: m).
Proof.
  induction m as [|[k' v'] m IH]; simpl; [reflexivity|].
  destruct (qlt k' k); [|reflexivity].
  rewrite IH. apply perm_swap.
Qed.

(** An item goes in front of the items of the same key. *)
Lemma qmm_insert_same_key k v v' m :
  qmm_insert k v ((k, v') :: m) = (k, v) :: (k, v') :: m.
Proof. simpl. now rewrite qlt_irrefl. Qed.

Lemma qmm_insert_not_empty k v m : qmm_isEmpty (qmm_insert k v m) = false.
Proof. destruct m as [|[k' v'] m]; simpl; trivial. now destruct (qlt k' k). Qed.

Lemma qmm_insert_map {W : Type} (f : V -> W) k v m :
  map (fun kv => (fst kv, f (snd kv))) (qmm_insert k v m) =
  qmm_insert k (f v) (map (fun kv => (fst kv, f (snd kv))) m).
Proof.
  induction m as [|[k' v'] m IH]; simpl; trivial.
  destruct (qlt k' k); simpl; now rewrite ?IH.
Qed.

(** Insertion keeps the map sorted: ascending keys, and among equal
    keys descending [stamp], when the new item carries a key that is not
    NaN and a stamp greater than all those in the map. *)
Variable stamp : V -> nat.

Lemma qmm_insert_sorted k v m :
  is_nan k = false ->
  Forall (fun x => is_nan (fst x) = false /\ (stamp (snd x) < stamp v)%nat) m ->
  StronglySorted (item_order stamp) m ->
  StronglySorted (item_order stamp) (qmm_insert k v m).
Proof.
  intros Hk Hm Hs. induction m as [|[k' v'] m IH]; simpl.
  - repeat constructor.
  - inversion Hm as [|? ? [Hk' Hv'] Hm']; subst.
    inversion Hs as [|? ? Hs' Hall]; subst. simpl in Hk', Hv'.
    destruct (qlt k' k) eqn:Hlt.
    + constructor; [now apply IH|].
      apply (Permutation_Forall (x := (k, v) :: m));
        [symmetry; apply qmm_insert_perm|].
      constructor; trivial. now left.
    + assert (Hle : qlt k k' = true \/ k = k').
      { destruct (qlt_total k k' Hk Hk') as [H|[H|H]]; auto. congruence. }
      constructor; [now constructor|].
      assert (Hfirst : item_order stamp (k, v) (k', v')).
      { destruct Hle as [H| ->]; [now left|now right]. }
      constructor; trivial.
      rewrite Forall_forall in Hall, Hm' |- *.
      intros [k2 v2] Hin. specialize (Hall _ Hin). specialize (Hm' _ Hin).
      simpl in Hm'. destruct Hm' as [_ Hv2].
      unfold item_order in *; simpl in *.
      destruct Hle as [H| ->], Hall as [H2|[-> H2]]; auto.
      left. eapply qlt_trans; eauto.
Qed.

End QMultiMapFacts.

(* ================================================================== *)
(** * The Elo difference of a player with game counters *)
(* ================================================================== *)

Lemma ratio_of_fin (p : PlayerData) :
  counters_ok p -> has_games p = true ->
  exists r : R, ratio_of p = Fin r /\ (0 <= r <= 1)%R /\
                r = (IZR (score_of p) / IZR (total_of p))%R.
Proof.
  intros (Hw & Hl & Hd) Hg. apply has_games_true in Hg.
  exists (IZR (score_of p) / IZR (total_of p))%R.
  assert (Ht : (0 < IZR (total_of p))%R) by now apply IZR_lt.
  assert (Hs : (0 <= IZR (score_of p))%R)
    by (apply IZR_le; unfold score_of; lia).
  assert (Hst : (IZR (score_of p) <= IZR (total_of p))%R)
    by (apply IZR_le; unfold score_of, total_of; lia).
  split; [|split; trivial].
  - unfold ratio_of, of_int. apply qdiv_fin. lra.
  - split.
    + apply Rmult_le_pos; trivial. left. now apply Rinv_0_lt_compat.
    + apply Rmult_le_reg_r with (IZR (total_of p)); trivial.
      unfold Rdiv. rewrite Rmult_assoc, Rinv_l by lra. lra.
Qed.

Lemma eloDiff_of_ratio_cases (r : R) :
  (0 <= r <= 1)%R ->
  (r = 0%R /\ eloDiff_of_ratio (Fin r) = NInf) \/
  (r = 1%R /\ eloDiff_of_ratio (Fin r) = PInf) \/
  ((0 < r < 1)%R /\
   eloDiff_of_ratio (Fin r) = Fin (-400 * ln (1 / r - 1) / ln 10)).
Proof.
  intros [H0 H1].
  destruct (Req_dec_T r 0) as [->|Hr0];
    [left; split; trivial; apply eloDiff_ratio_0|].
  destruct (Req_dec_T r 1) as [->|Hr1];
    [right; left; split; trivial; apply eloDiff_ratio_1|].
  right. right. split; [lra|].
  assert (Hinv : (1 < 1 / r)%R).
  { unfold Rdiv. rewrite Rmult_1_l, <- Rinv_1 at 1.
    apply Rinv_lt_contravar; lra. }
  unfold eloDiff_of_ratio.
  rewrite qlog_10, qdiv_fin by trivial. simpl qsub.
  rewrite qlog_fin_pos by lra. simpl qmul.
  rewrite qdiv_fin; trivial. pose proof ln_10_pos. lra.
Qed.

Lemma eloDiff_not_nan (p : PlayerData) :
  counters_ok p -> has_games p = true -> is_nan (eloDiff_of p) = false.
Proof.
  intros Hok Hg. destruct (ratio_of_fin p Hok Hg) as (r & Hr & Hrange & _).
  unfold eloDiff_of. rewrite Hr.
  destruct (eloDiff_of_ratio_cases r Hrange)
    as [[_ ->]|[[_ ->]|[_ ->]]]; trivial.
Qed.

(* ================================================================== *)
(** * The ranking with the indices kept *)
(* ================================================================== *)

Lemma filter_indexed_cons (i : nat) (p : PlayerData) (ps : list PlayerData) :
  List.filter with_games (indexed i (p :: ps)) =
  if has_games p then (i, p) :: List.filter with_games (indexed (S i) ps)
  else List.filter with_games (indexed (S i) ps).
Proof. reflexivity. Qed.

Lemma ranked_from_cons (i : nat) (p : PlayerData) (ps : list PlayerData)
      (mg : QMultiMap (nat * PlayerData)) :
  ranked_from i (p :: ps) mg =
  ranked_from (S i) ps
    (if has_games p then insert_indexed mg (i, p) else mg).
Proof.
  unfold ranked_from. rewrite filter_indexed_cons. now destruct (has_games p).
Qed.

Lemma fold_insert_forget (ps : list PlayerData) :
  forall (i : nat) (mg : QMultiMap (nat * PlayerData)),
  fold_left insert_player (List.filter has_games ps) (map forget_index mg) =
  map forget_index (ranked_from i ps mg).
Proof.
  induction ps as [|p ps IH]; intros i mg; trivial.
  rewrite ranked_from_cons. simpl List.filter.
  destruct (has_games p); [|apply IH]. simpl fold_left.
  rewrite <- IH. f_equal.
  unfold insert_player, insert_indexed, forget_index.
  now rewrite (qmm_insert_map (fun ip => rankingData_of (snd ip))).
Qed.

Lemma ranked_from_perm (ps : list PlayerData) :
  forall (i : nat) (mg : QMultiMap (nat * PlayerData)),
  Permutation (map snd (ranked_from i ps mg))
              (List.filter with_games (indexed i ps) ++ map snd mg).
Proof.
  induction ps as [|p ps IH]; intros i mg; [reflexivity|].
  rewrite ranked_from_cons, filter_indexed_cons, IH.
  destruct (has_games p); [|reflexivity].
  unfold insert_indexed.
  rewrite (Permutation_map snd (qmm_insert_perm _ _ _)). simpl.
  symmetry. apply Permutation_middle.
Qed.

Lemma item_ok_weaken (i j : nat) (x : qreal * (nat * PlayerData)) :
  (i <= j)%nat -> item_ok i x -> item_ok j x.
Proof. unfold item_ok. intuition lia. Qed.

Lemma ranked_from_sorted (ps : list PlayerData) :
  Forall counters_ok ps ->
  forall (i : nat) (mg : QMultiMap (nat * PlayerData)),
  Forall (item_ok i) mg ->
  StronglySorted (item_order fst) mg ->
  StronglySorted (item_order fst) (ranked_from i ps mg) /\
  Forall (item_ok (i + length ps)) (ranked_from i ps mg).
Proof.
  induction 1 as [|p ps Hp Hps IH]; intros i mg Hmg Hs.
  - unfold ranked_from. simpl. rewrite Nat.add_0_r. auto.
  - rewrite ranked_from_cons. simpl length.
    rewrite Nat.add_succ_r.
    change (S (i + length ps)) with (S i + length ps)%nat.
    destruct (has_games p) eqn:Hg.
    + apply IH.
      * apply (Permutation_Forall (x := (qneg (eloDiff_of p), (i, p)) :: mg));
          [symmetry; apply qmm_insert_perm|].
        constructor.
        -- unfold item_ok. simpl. rewrite qneg_nan.
           split; [now apply eloDiff_not_nan|]. split; [lia|trivial].
        -- eapply Forall_impl; [|exact Hmg].
           intros x. apply item_ok_weaken. lia.
      * apply qmm_insert_sorted; trivial.
        -- simpl. rewrite qneg_nan. now apply eloDiff_not_nan.
        -- eapply Forall_impl; [|exact Hmg].
           intros x (Hn & Hi & _). auto.
    + apply IH; trivial.
      eapply Forall_impl; [|exact Hmg].
      intros x. apply item_ok_weaken. lia.
Qed.

Lemma printRows_forget (mg : QMultiMap (nat * PlayerData)) (i : nat) :
  Forall (item_ok i) mg ->
  forall rank : Z,
  printRows rank (map forget_index mg) =
  rows_from (rank + 1) (map snd (map snd mg)).
Proof.
  induction 1 as [|[k [j p]] mg (_ & _ & Hk) _ IH]; intros rank; trivial.
  simpl in *. rewrite IH. f_equal.
  unfold row_of. subst k. now rewrite qneg_involutive.
Qed.

Lemma item_order_stands_above (i : nat) (mg : QMultiMap (nat * PlayerData)) :
  Forall (item_ok i) mg ->
  StronglySorted (item_order fst) mg ->
  StronglySorted stands_above (map snd mg).
Proof.
  intros Hok Hs. induction Hs as [|x mg Hs IH Hall]; simpl; [constructor|].
  inversion Hok as [|? ? (_ & _ & Hx) Hok']; subst.
  constructor; [now apply IH|].
  rewrite List.Forall_forall in Hall, Hok' |- *.
  intros y Hy. apply in_map_iff in Hy as (z & <- & Hz).
  specialize (Hall z Hz). destruct (Hok' z Hz) as (_ & _ & Hkz).
  unfold item_order, stands_above, qless in *.
  rewrite Hx, Hkz, qlt_qneg in Hall.
  destruct Hall as [Hlt|[Heq Hidx]]; [now left|right].
  split; trivial. now apply qneg_inj.
Qed.

(* ================================================================== *)
(** * Which lines [printRanking] writes *)
(* ================================================================== *)

Lemma playerCount_rankingLoop (t : Tournament) :
  printRanking t =
  printed (rankingLoop_of t) ++ printTable (ranking (rankingLoop_of t))
  ++ printSprt (sprt_status t).
Proof. reflexivity. Qed.

Lemma printRows_In (m : QMultiMap Rank.RankingData) (k : qreal)
      (d : Rank.RankingData) :
  In (k, d) m ->
  forall rank : Z, exists r : Z,
    In (RowLine r (Rank.name d) (qneg k) (Rank.games d)
                (qmul (Rank.score d) (Fin 100))
                (qmul (Rank.draws d) (Fin 100)))
       (printRows rank m).
Proof.
  induction m as [|[k' d'] m IH]; intros Hin rank; [destruct Hin|].
  destruct Hin as [[= -> ->]|Hin].
  - exists (rank + 1). now left.
  - destruct (IH Hin (rank + 1)) as [r Hr]. exists r. now right.
Qed.

Lemma insert_player_In (m : QMultiMap Rank.RankingData) (q : PlayerData)
      (x : qreal * Rank.RankingData) :
  In x (insert_player m q) <->
  x = (qneg (eloDiff_of q), rankingData_of q) \/ In x m.
Proof.
  unfold insert_player. split; intros H.
  - apply (Permutation_in _ (qmm_insert_perm _ _ _)) in H.
    destruct H as [<-|H]; auto.
  - apply (Permutation_in _ (Permutation_sym (qmm_insert_perm _ _ _))).
    destruct H as [->|H]; [now left|now right].
Qed.

Lemma fold_insert_In (ps : list PlayerData) (p : PlayerData) :
  forall m : QMultiMap Rank.RankingData,
  In p ps \/ In (qneg (eloDiff_of p), rankingData_of p) m ->
  In (qneg (eloDiff_of p), rankingData_of p) (fold_left insert_player ps m).
Proof.
  induction ps as [|q ps IH]; intros m Hin; simpl.
  - destruct Hin as [[]|Hin]. exact Hin.
  - apply IH. rewrite insert_player_In.
    destruct Hin as [[->|Hin]|Hin]; auto.
Qed.

Lemma table_row_of_player (t : Tournament) (i : nat) (p : PlayerData) :
  playerCount t <> 2 -> playerAt t i = Some p -> has_games p = true ->
  exists rank : Z, In (row_of rank p) (printRanking t).
Proof.
  intros Hc Hat Hg. rewrite playerCount_rankingLoop.
  unfold rankingLoop_of. rewrite ranking_table by trivial.
  assert (Hin : In (qneg (eloDiff_of p), rankingData_of p)
                   (fold_left insert_player
                      (List.filter has_games (players t))
                      (ranking loop_init))).
  { apply fold_insert_In. left. apply filter_In. split; trivial.
    eapply nth_error_In, Hat. }
  destruct (printRows_In _ _ _ Hin 0) as [r Hr].
  exists r. apply in_or_app. right. apply in_or_app. left.
  unfold printTable. apply in_or_app. right.
  rewrite qneg_involutive in Hr. exact Hr.
Qed.

Lemma no_table_for_two (t : Tournament) :
  playerCount t = 2 -> ranking (rankingLoop_of t) = [].
Proof.
  intros Hc. unfold rankingLoop_of. rewrite Hc. apply ranking_two_players.
Qed.



Lemma fold_insert_perm (ps : list PlayerData) :
  forall m : QMultiMap Rank.RankingData,
  Permutation (map snd (fold_left insert_player ps m))
              (map rankingData_of ps ++ map snd m).
Proof.
  induction ps as [|q ps IH]; intros m; [reflexivity|].
  simpl. rewrite IH. unfold insert_player.
  rewrite (Permutation_map snd (qmm_insert_perm _ _ _)). simpl.
  symmetry. apply Permutation_middle.
Qed.

Lemma rows_of_printRanking (t : Tournament) :
  List.filter is_row (printRanking t) =
  printRows 0 (ranking (rankingLoop_of t)).
Proof.
  rewrite playerCount_rankingLoop, !List.filter_app.
  rewrite printTable_rows, printSprt_no_rows, app_nil_r.
  now destruct (printed_of_loop t) as [->|[e ->]].
Qed.

(* ================================================================== *)
(** * Players without a finished game (C9) *)
(* ================================================================== *)

(** C9.  A player whose counters give [wins + losses + draws = 0] is
    skipped by [printRanking]: lines 180-181 (the division by [total]
    and the logarithm) are evaluated for no such player, only for
    players with [total > 0]; the rows of the table are exactly the rows
    of the players with a finished game, and the data of the skipped
    player is not among them; and when no player has a finished game,
    nothing but the SPRT part is written: no header and no row. *)
Theorem players_without_games_are_skipped
        (t : Tournament) (i : nat) (p : PlayerData)
        (Hat : playerAt t i = Some p)
        (Hzero : wins p + losses p + draws p = 0) :
  (forall e : evaluation,
     In e (evaluated (rankingLoop_of t)) -> ev_player e <> i) /\
  (forall e : evaluation,
     In e (evaluated (rankingLoop_of t)) ->
     exists q : PlayerData,
       playerAt t (ev_player e) = Some q /\ 0 < total_of q) /\
  (exists m : QMultiMap Rank.RankingData,
     List.filter is_row (printRanking t) = printRows 0 m /\
     Permutation (map snd m)
       (map rankingData_of
            (List.filter has_games
               (if playerCount t =? 2 then [] else players t))) /\
     ~ In (rankingData_of p) (map snd m)) /\
  (forallb (fun q => negb (has_games q)) (players t) = true ->
   printRanking t = printSprt (sprt_status t) /\
   forall l : line, In l (printRanking t) -> is_table_line l = false).
Proof.
  assert (Hev : forall e, In e (evaluated (rankingLoop_of t)) ->
                exists q, playerAt t (ev_player e) = Some q /\
                          has_games q = true).
  { intros e He. apply evaluated_sound in He as [[]|(k & q & Hk & Hq & ->)].
    exists q. simpl. auto. }
  split; [|split; [|split]].
  - intros e He <-. destruct (Hev e He) as (q & Hq & Hg).
    unfold playerAt in *. rewrite Hat in Hq. injection Hq as <-.
    rewrite (no_games_total p Hzero) in Hg. discriminate.
  - intros e He. destruct (Hev e He) as (q & Hq & Hg).
    exists q. split; trivial. now apply has_games_true.
  - assert (Hperm : Permutation (map snd (ranking (rankingLoop_of t)))
                      (map rankingData_of
                         (List.filter has_games
                            (if playerCount t =? 2 then []
                             else players t)))).
    { destruct (Z.eqb_spec (playerCount t) 2) as [Hc|Hc].
      - now rewrite no_table_for_two.
      - unfold rankingLoop_of. rewrite ranking_table by trivial.
        rewrite fold_insert_perm. simpl. now rewrite app_nil_r. }
    exists (ranking (rankingLoop_of t)).
    split; [apply rows_of_printRanking|]. split; [exact Hperm|].
    intros Hin. apply (Permutation_in _ Hperm) in Hin.
    apply in_map_iff in Hin as (q & Heq & Hq).
    apply filter_In in Hq as [_ Hg]. apply has_games_true in Hg.
    apply (f_equal Rank.games) in Heq. simpl in Heq.
    unfold total_of in *. rewrite !Z.quot_mul in Heq by lia. lia.
  - intros Hnone.
    assert (Hout : printRanking t = printSprt (sprt_status t)).
    { rewrite playerCount_rankingLoop. unfold rankingLoop_of.
      now rewrite rankingLoop_no_games. }
    split; trivial. rewrite Hout. apply printSprt_no_table.
Qed.

Lemma players_without_games_witness :
  (forall e : evaluation,
     In e (evaluated (rankingLoop_of fresh_match)) -> ev_player e <> 0%nat) /\
  printRanking fresh_match = printSprt (sprt_status fresh_match).
Proof.
  destruct (players_without_games_are_skipped
              fresh_match 0 (mkPlayerData "A" 0 0 0) eq_refl eq_refl)
    as (Hnot & _ & _ & Hnone).
  split; [exact Hnot|]. apply Hnone. reflexivity.
Defined.

Lemma two_players_loop_first (t : Tournament) (p0 : PlayerData) :
  playerCount t = 2 -> playerAt t 0 = Some p0 -> 0 < total_of p0 ->
  rankingLoop_of t =
  {| ranking := [];
     printed := [EloDifferenceLine (eloDiff_of p0)];
     evaluated := [mkEvaluation 0 (ratio_of p0) (eloDiff_of p0)] |}.
Proof.
  intros Hc Hat Hg. apply has_games_true in Hg.
  unfold rankingLoop_of. rewrite Hc.
  apply (evaluated_two_players (players t) 0 loop_init 0 p0 Hat Hg).
  intros j q Hj. lia.
Qed.

(* ================================================================== *)
(** * The ratios 0 and 1 (C1) *)
(* ================================================================== *)

Lemma one_win_loop :
  rankingLoop_of one_win_match =
  {| ranking := [];
     printed := [EloDifferenceLine (eloDiff_of (mkPlayerData "A" 1 0 0))];
     evaluated := [mkEvaluation 0 (ratio_of (mkPlayerData "A" 1 0 0))
                                (eloDiff_of (mkPlayerData "A" 1 0 0))] |}.
Proof.
  apply (evaluated_two_players (players one_win_match) 0 loop_init 0
           (mkPlayerData "A" 1 0 0)); trivial.
  intros j q Hj. lia.
Qed.

Lemma one_win_ratio : ratio_of (mkPlayerData "A" 1 0 0) = Fin 1.
Proof.
  unfold ratio_of, of_int.
  change (score_of (mkPlayerData "A" 1 0 0)) with 2.
  change (total_of (mkPlayerData "A" 1 0 0)) with 2.
  rewrite qdiv_fin by lra. f_equal. lra.
Qed.

Lemma one_loss_ratio : ratio_of (mkPlayerData "A" 0 1 0) = Fin 0.
Proof.
  unfold ratio_of, of_int.
  change (score_of (mkPlayerData "A" 0 1 0)) with 0.
  change (total_of (mkPlayerData "A" 0 1 0)) with 2.
  rewrite qdiv_fin by lra. f_equal. lra.
Qed.

Lemma printSprt_off : printSprt sprt_off = [].
Proof.
  unfold printSprt, sprt_off. simpl.
  destruct (Req_dec_T 0 0) as [_|H]; [reflexivity|contradiction].
Qed.

(** C1, as stated, fails: in a two-player match whose first player won
    the only finished game the ratio is 1, and [printRanking] evaluates
    the Elo-difference formula for that player all the same; the value
    it writes is the infinity the formula yields, not a guarded result.
    The same holds at ratio 0, when the first player lost the only
    game. *)
Lemma elo_formula_not_guarded_at_ratio_1 :
  (playerAt one_win_match 0 = Some (mkPlayerData "A" 1 0 0) /\
   0 < total_of (mkPlayerData "A" 1 0 0) /\
   ratio_of (mkPlayerData "A" 1 0 0) = Fin 1 /\
   In (mkEvaluation 0 (Fin 1) (eloDiff_of_ratio (Fin 1)))
      (evaluated (rankingLoop_of one_win_match)) /\
   printRanking one_win_match = [EloDifferenceLine PInf]) /\
  (playerAt one_loss_match 0 = Some (mkPlayerData "A" 0 1 0) /\
   0 < total_of (mkPlayerData "A" 0 1 0) /\
   ratio_of (mkPlayerData "A" 0 1 0) = Fin 0 /\
   In (mkEvaluation 0 (Fin 0) (eloDiff_of_ratio (Fin 0)))
      (evaluated (rankingLoop_of one_loss_match)) /\
   printRanking one_loss_match = [EloDifferenceLine NInf]).
Proof.
  split.
  - split; [reflexivity|]. split; [reflexivity|].
    split; [apply one_win_ratio|]. split.
    + rewrite one_win_loop. unfold eloDiff_of. rewrite one_win_ratio.
      now left.
    + rewrite playerCount_rankingLoop, one_win_loop.
      unfold eloDiff_of. rewrite one_win_ratio, eloDiff_ratio_1.
      simpl printed. simpl ranking. unfold printTable. simpl.
      now rewrite printSprt_off.
  - split; [reflexivity|]. split; [reflexivity|].
    split; [apply one_loss_ratio|].
    rewrite playerCount_rankingLoop.
    rewrite (two_players_loop_first one_loss_match (mkPlayerData "A" 0 1 0))
      by reflexivity.
    unfold eloDiff_of. rewrite one_loss_ratio, eloDiff_ratio_0.
    split; [now left|].
    simpl printed. simpl ranking. unfold printTable. simpl.
    now rewrite printSprt_off.
Qed.

(** C1, amended.  For every player with [total > 0] that the loop
    reaches (every such player when the player count is not 2, the first
    such player when it is 2) [printRanking] evaluates the formula of
    line 181 whatever the ratio is, also at ratio 0 and at ratio 1: the
    formula then yields minus infinity and plus infinity, and that value
    is what is written, in the "ELO difference" line or in the player's
    row.  The only guard of the loop is [total <= 0]. *)
Theorem elo_formula_evaluated_at_every_ratio
        (t : Tournament) (i : nat) (p : PlayerData)
        (Hat : playerAt t i = Some p)
        (Hgames : 0 < total_of p)
        (Hreached : playerCount t <> 2 \/
                    forall (j : nat) (q : PlayerData),
                      (j < i)%nat -> playerAt t j = Some q ->
                      total_of q <= 0) :
  In (mkEvaluation i (ratio_of p) (eloDiff_of p))
     (evaluated (rankingLoop_of t)) /\
  (ratio_of p = Fin 0 -> eloDiff_of p = NInf) /\
  (ratio_of p = Fin 1 -> eloDiff_of p = PInf) /\
  (In (EloDifferenceLine (eloDiff_of p)) (printRanking t) \/
   exists rank : Z, In (row_of rank p) (printRanking t)).
Proof.
  apply has_games_true in Hgames.
  assert (Hvalues : (ratio_of p = Fin 0 -> eloDiff_of p = NInf) /\
                    (ratio_of p = Fin 1 -> eloDiff_of p = PInf)).
  { unfold eloDiff_of. split; intros ->;
      [apply eloDiff_ratio_0|apply eloDiff_ratio_1]. }
  destruct Hvalues as [Hzero Hone].
  destruct (Z.eq_dec (playerCount t) 2) as [Hc|Hc].
  - destruct Hreached as [Hne|Hbefore]; [contradiction|].
    assert (Hloop := evaluated_two_players (players t) 0 loop_init i p
                       Hat Hgames).
    rewrite <- Hc in Hloop. fold (rankingLoop_of t) in Hloop.
    rewrite playerCount_rankingLoop, Hloop.
    + repeat split; trivial; [now left|]. left. now left.
    + intros j q Hj Hq. apply has_games_false. eapply Hbefore; eauto.
  - repeat split; trivial.
    + apply (evaluated_table (playerCount t) (players t) Hc 0 loop_init i p);
        trivial.
    + right. now apply (table_row_of_player t i p).
Qed.

Lemma elo_formula_evaluated_witness :
  In (mkEvaluation 0 (ratio_of (mkPlayerData "A" 1 0 0))
                   (eloDiff_of (mkPlayerData "A" 1 0 0)))
     (evaluated (rankingLoop_of one_win_match)).
Proof.
  apply (elo_formula_evaluated_at_every_ratio
           one_win_match 0 (mkPlayerData "A" 1 0 0)).
  - reflexivity.
  - reflexivity.
  - right. intros j q Hj. lia.
Defined.

(* ================================================================== *)
(** * The SPRT line (C6) *)
(* ================================================================== *)

Lemma sprt_lines_of_printRanking (t : Tournament) :
  List.filter is_sprt_line (printRanking t) = printSprt (sprt_status t).
Proof.
  rewrite playerCount_rankingLoop, !List.filter_app.
  rewrite printTable_not_sprt, printSprt_sprt.
  now destruct (printed_of_loop t) as [->|[e ->]].
Qed.

(** C6.  When the three numbers of the SPRT status are not all zero,
    [printRanking] writes exactly one SPRT line; it carries [llr] and
    both bounds, and its verdict text is " - H0 was accepted" exactly
    when the result is [AcceptH0], " - H1 was accepted" exactly when it
    is [AcceptH1], and empty otherwise.  When the three numbers are all
    zero no SPRT line is written. *)
Theorem sprt_summary_line (t : Tournament) :
  (sprt_trivial (sprt_status t) ->
   List.filter is_sprt_line (printRanking t) = []) /\
  (~ sprt_trivial (sprt_status t) ->
   exists verdict : string,
     List.filter is_sprt_line (printRanking t) =
     [SprtLine (Sprt.llr (sprt_status t)) (Sprt.lBound (sprt_status t))
               (Sprt.uBound (sprt_status t)) verdict] /\
     (verdict = " - H0 was accepted" <->
      Sprt.result (sprt_status t) = Sprt.AcceptH0) /\
     (verdict = " - H1 was accepted" <->
      Sprt.result (sprt_status t) = Sprt.AcceptH1) /\
     (verdict = EmptyString <-> Sprt.result (sprt_status t) = Sprt.Continuing)).
Proof.
  rewrite sprt_lines_of_printRanking. unfold printSprt.
  destruct (_ || _) eqn:Hactive; split.
  - intros Htriv. apply sprt_trivial_spec in Htriv. congruence.
  - intros _. eexists. split; [reflexivity|].
    destruct (Sprt.result (sprt_status t));
      repeat split; intros; trivial; discriminate.
  - trivial.
  - intros Hnot. apply sprt_trivial_spec in Hactive. contradiction.
Qed.

Lemma sprt_summary_line_witness :
  List.filter is_sprt_line (printRanking one_win_match) = [] /\
  exists verdict : string,
    List.filter is_sprt_line (printRanking decided_match) =
    [SprtLine (Fin 3) (Fin (-2)) (Fin 2) verdict] /\
    (verdict = " - H1 was accepted" <-> Sprt.AcceptH1 = Sprt.AcceptH1).
Proof.
  split.
  - apply (proj1 (sprt_summary_line one_win_match)).
    repeat split.
  - destruct (proj2 (sprt_summary_line decided_match)) as (v & Hv & _ & H1 & _).
    + intros [Hllr _]. simpl in Hllr. injection Hllr. lra.
    + exists v. split; [exact Hv|exact H1].
Defined.

(* ================================================================== *)
(** * The scenario of six wins, two draws and two losses (C5) *)
(* ================================================================== *)

(** Comparing logarithms of integer powers by comparing the powers. *)
Lemma ln_powers_lt (a b c : Z) (m n k : nat) :
  0 < a -> 0 < b -> 0 < c ->
  a ^ Z.of_nat m * b ^ Z.of_nat n < c ^ Z.of_nat k ->
  (INR m * ln (IZR a) + INR n * ln (IZR b) < INR k * ln (IZR c))%R.
Proof.
  intros Ha Hb Hc Hlt.
  apply IZR_lt in Ha, Hb, Hc.
  rewrite <- !ln_pow, <- ln_mult by auto using pow_lt.
  apply ln_increasing; [apply Rmult_lt_0_compat; auto using pow_lt|].
  rewrite !pow_IZR, <- mult_IZR. now apply IZR_lt.
Qed.

Lemma ln_powers_gt (a b c : Z) (m n k : nat) :
  0 < a -> 0 < b -> 0 < c ->
  c ^ Z.of_nat k < a ^ Z.of_nat m * b ^ Z.of_nat n ->
  (INR k * ln (IZR c) < INR m * ln (IZR a) + INR n * ln (IZR b))%R.
Proof.
  intros Ha Hb Hc Hlt.
  apply IZR_lt in Ha, Hb, Hc.
  rewrite <- !ln_pow, <- ln_mult by auto using pow_lt.
  apply ln_increasing; [auto using pow_lt|].
  rewrite !pow_IZR, <- mult_IZR. now apply IZR_lt.
Qed.

Lemma lt_quotient (x y z : R) : (0 < z)%R -> (x * z < y)%R -> (x < y / z)%R.
Proof.
  intros Hz H. apply Rmult_lt_reg_r with z; trivial.
  unfold Rdiv. rewrite Rmult_assoc, Rinv_l by lra. lra.
Qed.

Lemma quotient_lt (x y z : R) : (0 < z)%R -> (x < y * z)%R -> (x / z < y)%R.
Proof.
  intros Hz H. apply Rmult_lt_reg_r with z; trivial.
  unfold Rdiv. rewrite Rmult_assoc, Rinv_l by lra. lra.
Qed.

Lemma ln_three_sevenths : ln (1 / (7 / 10) - 1) = (ln 3 - ln 7)%R.
Proof.
  replace (1 / (7 / 10) - 1)%R with (3 * / 7)%R by field.
  rewrite ln_mult, ln_Rinv by lra. lra.
Qed.

Lemma scenario_elo_bounds :
  (147 < -400 * ln (1 / (7 / 10) - 1) / ln 10 < 147 + 1 / 2)%R.
Proof.
  rewrite ln_three_sevenths. pose proof ln_10_pos as H10.
  assert (Hlow : (INR 147 * ln 10 + INR 400 * ln 3 < INR 400 * ln 7)%R)
    by (apply ln_powers_lt; try lia; now vm_compute).
  assert (Hhigh : (INR 800 * ln 7 < INR 295 * ln 10 + INR 800 * ln 3)%R)
    by (apply ln_powers_gt; try lia; now vm_compute).
  rewrite !INR_IZR_INZ in Hlow, Hhigh.
  change (Z.of_nat 147) with 147 in Hlow.
  change (Z.of_nat 400) with 400 in Hlow.
  change (Z.of_nat 800) with 800 in Hhigh.
  change (Z.of_nat 295) with 295 in Hhigh.
  split.
  - apply lt_quotient; lra.
  - apply quotient_lt; lra.
Qed.

Lemma scenario_ratio : ratio_of playerA = Fin (7 / 10).
Proof.
  unfold ratio_of, of_int.
  change (score_of playerA) with 14. change (total_of playerA) with 20.
  rewrite qdiv_fin by lra. f_equal. lra.
Qed.

Lemma scenario_eloDiff :
  eloDiff_of playerA = Fin (-400 * ln (1 / (7 / 10) - 1) / ln 10).
Proof.
  unfold eloDiff_of. rewrite scenario_ratio.
  destruct (eloDiff_of_ratio_cases (7 / 10)) as [[H _]|[[H _]|[_ H]]];
    trivial; lra.
Qed.

(** C5.  For the player with 6 wins, 2 draws and 2 losses of a
    two-player match: [score = 14], [total = 20], the ratio is 0.7, and
    the Elo difference [printRanking] writes is
    [-400 * log10(1/0.7 - 1)], a number between 147 and 147.5, which
    "%.0f" shows as 147. *)
Theorem scenario_elo_difference_is_147 :
  score_of playerA = 14 /\
  total_of playerA = 20 /\
  ratio_of playerA = Fin (7 / 10) /\
  exists x : R,
    x = (-400 * ln (1 / (7 / 10) - 1) / ln 10)%R /\
    eloDiff_of playerA = Fin x /\
    (147 < x < 147 + 1 / 2)%R /\
    printRanking scenario_match = [EloDifferenceLine (Fin x)].
Proof.
  split; [reflexivity|]. split; [reflexivity|].
  split; [apply scenario_ratio|].
  eexists. split; [reflexivity|].
  split; [apply scenario_eloDiff|]. split; [apply scenario_elo_bounds|].
  rewrite <- scenario_eloDiff.
  rewrite playerCount_rankingLoop.
  rewrite (two_players_loop_first scenario_match playerA) by reflexivity.
  simpl.
  unfold printSprt. simpl.
  destruct (Req_dec_T 0 0) as [_|H]; [reflexivity|contradiction].
Qed.

(* ================================================================== *)
(** * Two players (C10) *)
(* ================================================================== *)








(* ================================================================== *)
(** * The order of the rows (C4) *)
(* ================================================================== *)

Lemma level_ranking :
  ranking (rankingLoop_of level_match) =
  [(qneg (eloDiff_of (mkPlayerData "C" 1 1 0)),
    rankingData_of (mkPlayerData "C" 1 1 0));
   (qneg (eloDiff_of (mkPlayerData "B" 1 1 0)),
    rankingData_of (mkPlayerData "B" 1 1 0));
   (qneg (eloDiff_of (mkPlayerData "A" 1 1 0)),
    rankingData_of (mkPlayerData "A" 1 1 0))].
Proof.
  unfold rankingLoop_of. rewrite ranking_table by discriminate.
  change (List.filter has_games (players level_match))
    with [mkPlayerData "A" 1 1 0; mkPlayerData "B" 1 1 0;
          mkPlayerData "C" 1 1 0].
  change (eloDiff_of (mkPlayerData "C" 1 1 0))
    with (eloDiff_of (mkPlayerData "A" 1 1 0)).
  change (eloDiff_of (mkPlayerData "B" 1 1 0))
    with (eloDiff_of (mkPlayerData "A" 1 1 0)).
  unfold fold_left, insert_player, loop_init, ranking.
  change (eloDiff_of (mkPlayerData "C" 1 1 0))
    with (eloDiff_of (mkPlayerData "A" 1 1 0)).
  change (eloDiff_of (mkPlayerData "B" 1 1 0))
    with (eloDiff_of (mkPlayerData "A" 1 1 0)).
  change (qmm_insert ?k ?v []) with [(k, v)].
  now rewrite !qmm_insert_same_key.
Qed.

(** C4, as stated, fails: three players with the same counters have the
    same Elo difference, and their rows come out in the order C, B, A:
    the player inserted last stands first, not the player inserted
    first. *)
Lemma equal_elo_rows_latest_first :
  eloDiff_of (mkPlayerData "A" 1 1 0) = eloDiff_of (mkPlayerData "B" 1 1 0) /\
  eloDiff_of (mkPlayerData "B" 1 1 0) = eloDiff_of (mkPlayerData "C" 1 1 0) /\
  map row_name (List.filter is_row (printRanking level_match)) =
  ["C"; "B"; "A"] /\
  map row_elo (List.filter is_row (printRanking level_match)) =
  [eloDiff_of (mkPlayerData "C" 1 1 0); eloDiff_of (mkPlayerData "B" 1 1 0);
   eloDiff_of (mkPlayerData "A" 1 1 0)].
Proof.
  split; [reflexivity|]. split; [reflexivity|].
  rewrite rows_of_printRanking, level_ranking. split; [reflexivity|].
  simpl. now rewrite !qneg_involutive.
Qed.

(** C4, amended.  For more than two players with game counters, the rows
    of [printRanking] are the rows of the players with a finished game,
    ranked from 1, in descending order of Elo difference; the order is
    strict between players of different Elo difference, and players with
    the same Elo difference stand in the reverse of the order of
    insertion: the player of greater index first. *)
Theorem rows_descend_by_elo_latest_first
        (t : Tournament)
        (Hmany : 2 < playerCount t)
        (Hcounters : Forall counters_ok (players t)) :
  exists ranked : list (nat * PlayerData),
    Permutation ranked (List.filter with_games (indexed 0 (players t))) /\
    List.filter is_row (printRanking t) = rows_from 1 (map snd ranked) /\
    StronglySorted stands_above ranked.
Proof.
  assert (Hc : playerCount t <> 2) by lia.
  destruct (ranked_from_sorted (players t) Hcounters 0 [])
    as [Hsorted Hitems]; [constructor|constructor|].
  exists (map snd (ranked_from 0 (players t) [])).
  split; [|split].
  - rewrite ranked_from_perm. simpl. now rewrite app_nil_r.
  - rewrite rows_of_printRanking. unfold rankingLoop_of.
    rewrite ranking_table by trivial.
    change (ranking loop_init)
      with (map forget_index (@nil (qreal * (nat * PlayerData)))).
    rewrite (fold_insert_forget (players t) 0).
    now rewrite (printRows_forget _ _ Hitems).
  - eapply item_order_stands_above; eauto.
Qed.

Lemma rows_descend_witness :
  exists ranked : list (nat * PlayerData),
    Permutation ranked
      (List.filter with_games (indexed 0 (players level_match))) /\
    List.filter is_row (printRanking level_match) =
    rows_from 1 (map snd ranked) /\
    StronglySorted stands_above ranked.
Proof.
  apply (rows_descend_by_elo_latest_first level_match).
  - reflexivity.
  - repeat (apply Forall_cons; [unfold counters_ok; simpl; lia|]).
    apply Forall_nil.
Defined.

(* ================================================================== *)
(** * The cache of opening books (C2) *)
(* ================================================================== *)

Lemma addOpeningBook_cached (read : string -> bool) (fileName : string)
      (em : EngineMatch) (book : nat) :
  m_books em !! fileName = Some book ->
  isEmpty fileName = false ->
  addOpeningBook read fileName em = (Some book, em, []).
Proof. intros Hbook Hname. unfold addOpeningBook. now rewrite Hname, Hbook. Qed.

Lemma addOpeningBook_not_cached (read : string -> bool) (fileName : string)
      (em : EngineMatch) :
  m_books em !! fileName = None ->
  isEmpty fileName = false ->
  addOpeningBook read fileName em =
  if read fileName then
    (Some (next_book em),
     {| m_books := <[fileName := next_book em]> (m_books em);
        m_debug := m_debug em;
        m_ratingInterval := m_ratingInterval em;
        next_book := S (next_book em) |},
     [ReadFile fileName])
  else (None, em, [ReadFile fileName; CantReadWarning fileName]).
Proof.
  intros Hbook Hname. unfold addOpeningBook. rewrite Hname, Hbook.
  now destruct (read fileName).
Qed.

(** A book that is in the cache stays there, under the same name. *)
Lemma addOpeningBook_keeps (read : string -> bool) (fileName f : string)
      (em : EngineMatch) (book : nat) :
  m_books em !! f = Some book ->
  m_books (addOpeningBook read fileName em).1.2 !! f = Some book.
Proof.
  intros Hbook. unfold addOpeningBook.
  destruct (isEmpty fileName); trivial.
  destruct (m_books em !! fileName) eqn:Hlookup; trivial.
  destruct (read fileName); simpl; trivial.
  rewrite lookup_insert_ne; trivial. congruence.
Qed.

Lemma addOpeningBooks_keep (calls : list book_call) (f : string) (book : nat) :
  forall em : EngineMatch,
  m_books em !! f = Some book ->
  m_books (addOpeningBooks calls em).1 !! f = Some book.
Proof.
  induction calls as [|[read fileName] calls IH]; intros em Hbook; trivial.
  simpl.
  pose proof (addOpeningBook_keeps read fileName f em book Hbook) as Hkept.
  destruct (addOpeningBook read fileName em) as [[ptr em'] effects].
  specialize (IH em' Hkept).
  now destruct (addOpeningBooks calls em') as [em'' effects'].
Qed.

(** A call that returns a book leaves it in the cache. *)
Lemma addOpeningBook_stores (read : string -> bool) (fileName : string)
      (em em1 : EngineMatch) (book : nat) (effects : list effect) :
  addOpeningBook read fileName em = (Some book, em1, effects) ->
  m_books em1 !! fileName = Some book /\ isEmpty fileName = false.
Proof.
  unfold addOpeningBook. destruct (isEmpty fileName); [discriminate|].
  destruct (m_books em !! fileName) eqn:Hlookup.
  - intros [= -> <- _]. auto.
  - destruct (read fileName); [|discriminate].
    intros [= <- <- _]. simpl. now rewrite lookup_insert_eq.
Qed.

(** C2, as stated, fails: when the first load of a file fails, the next
    call with the same name reads the file again and reports the
    failure again; and when the file has become readable in between, the
    next call yields a book. *)
Lemma failed_load_is_retried :
  (addOpeningBooks [(unreadable, "book.bin"); (unreadable, "book.bin")]
                   EngineMatch_new).2 =
  [ReadFile "book.bin"; CantReadWarning "book.bin";
   ReadFile "book.bin"; CantReadWarning "book.bin"] /\
  (addOpeningBook readable "book.bin"
     (addOpeningBooks [(unreadable, "book.bin")] EngineMatch_new).1).1.1 =
  Some 1%nat.
Proof. split; reflexivity. Qed.

(** C2, amended.  For a file name that is not empty: when a call
    returns a book, every later call with the same name, after any
    calls in between, returns the same book and reads no file.  When a
    call returns no book, the file was read, the failure was
    reported, and nothing was cached: the state is unchanged, and every
    later call with the same name made while the name is still not in
    the cache reads the file again, reporting the failure again when the
    read fails again. *)
Theorem opening_book_is_cached_after_a_successful_load
        (read : string -> bool) (fileName : string) (em em1 : EngineMatch)
        (book : OpeningBookPtr) (effects : list effect)
        (Hname : isEmpty fileName = false)
        (Hcall : addOpeningBook read fileName em = (book, em1, effects)) :
  match book with
  | Some b =>
      forall (calls : list book_call) (read' : string -> bool),
        let em2 := (addOpeningBooks calls em1).1 in
        addOpeningBook read' fileName em2 = (Some b, em2, [])
  | None =>
      em1 = em /\
      effects = [ReadFile fileName; CantReadWarning fileName] /\
      forall (calls : list book_call) (read' : string -> bool),
        let em2 := (addOpeningBooks calls em1).1 in
        m_books em2 !! fileName = None ->
        read' fileName = false ->
        addOpeningBook read' fileName em2 =
        (None, em2, [ReadFile fileName; CantReadWarning fileName])
  end.
Proof.
  destruct book as [b|].
  - intros calls read' em2.
    apply addOpeningBook_stores in Hcall as [Hstored _].
    apply addOpeningBook_cached; trivial.
    now apply addOpeningBooks_keep.
  - unfold addOpeningBook in Hcall. rewrite Hname in Hcall.
    destruct (m_books em !! fileName) eqn:Hlookup; [discriminate|].
    destruct (read fileName); [discriminate|].
    injection Hcall as <- <-. repeat split; trivial.
    intros calls read' em2 Hnot Hfail.
    rewrite addOpeningBook_not_cached by trivial. now rewrite Hfail.
Qed.

Lemma opening_book_cache_witness :
  addOpeningBook unreadable "book.bin"
    (addOpeningBooks [(readable, "other.bin")]
       (addOpeningBook readable "book.bin" EngineMatch_new).1.2).1 =
  (Some 1%nat,
   (addOpeningBooks [(readable, "other.bin")]
      (addOpeningBook readable "book.bin" EngineMatch_new).1.2).1,
   []).
Proof.
  exact (opening_book_is_cached_after_a_successful_load
           readable "book.bin" EngineMatch_new
           (addOpeningBook readable "book.bin" EngineMatch_new).1.2
           (Some 1%nat) [ReadFile "book.bin"] eq_refl eq_refl
           [(readable, "other.bin")] unreadable).
Defined.

(* ================================================================== *)
(** * When the ranking is printed (C3) *)
(* ================================================================== *)

Lemma ranking_prints_app (xs ys : list report) :
  ranking_prints (xs ++ ys) = (ranking_prints xs + ranking_prints ys)%nat.
Proof. unfold ranking_prints. now rewrite List.filter_app, length_app. Qed.

Lemma rem_test (r c : Z) :
  0 <= r -> 0 <= c ->
  negb (r =? 0) && (Z.rem c r =? 0) = multiple_of r c.
Proof.
  intros Hr Hc. unfold multiple_of.
  destruct (Z.eqb_spec r 0) as [->|Hne]; simpl; trivial.
  destruct (Z.ltb_spec 0 r); [|lia]. simpl.
  now rewrite Z.rem_mod_nonneg by lia.
Qed.

Lemma no_multiple_of_zero (ks : list Z) : List.filter (multiple_of 0) ks = [].
Proof. induction ks as [|k ks IH]; trivial. Qed.

Lemma onGameFinished_prints (em : EngineMatch) (t : Tournament)
      (game : ChessGame) (number : Z) :
  0 <= m_ratingInterval em -> 0 <= finishedGameCount t ->
  ranking_prints (onGameFinished em t game number) =
  if multiple_of (m_ratingInterval em) (finishedGameCount t)
  then 1%nat else 0%nat.
Proof.
  intros Hr Hc. unfold onGameFinished.
  rewrite !ranking_prints_app, rem_test by trivial.
  replace (ranking_prints
             (if playerCount t =? 2
              then match playerAt t 0, playerAt t 1 with
                   | Some fcp, Some scp => _
                   | _, _ => []
                   end
              else [])) with 0%nat.
  - now destruct (multiple_of _ _).
  - destruct (playerCount t =? 2); trivial.
    now destruct (playerAt t 0), (playerAt t 1).
Qed.

Lemma onTournamentFinished_prints (em : EngineMatch) (t : Tournament) :
  ranking_prints (onTournamentFinished em t) =
  if (m_ratingInterval em =? 0)
     || negb (Z.rem (finishedGameCount t) (m_ratingInterval em) =? 0)
  then 1%nat else 0%nat.
Proof.
  unfold onTournamentFinished. rewrite !ranking_prints_app.
  replace (ranking_prints
             (if isEmpty (errorString t) then []
              else [Warning (errorString t)])) with 0%nat
    by now destruct (isEmpty _).
  now destruct (_ || _).
Qed.

Lemma games_with_ranking_counts (em : EngineMatch)
      (games : list finished_game) :
  0 <= m_ratingInterval em ->
  forall k : nat,
  map (fun g => finishedGameCount (fg_tournament g)) games =
  map Z.of_nat (seq k (length games)) ->
  games_with_ranking em (Z.of_nat k) games =
  List.filter (multiple_of (m_ratingInterval em))
              (map Z.of_nat (seq k (length games))) /\
  ranking_prints
    (flat_map (fun g => onGameFinished em (fg_tournament g) (fg_game g)
                                       (fg_number g)) games) =
  length (games_with_ranking em (Z.of_nat k) games).
Proof.
  intros Hr. induction games as [|g games IH]; intros k Hcounts; [now split|].
  simpl in Hcounts. injection Hcounts as Hg Hrest.
  destruct (IH (S k) Hrest) as [IHlist IHcount].
  replace (Z.of_nat (S k)) with (Z.of_nat k + 1) in IHlist, IHcount by lia.
  cbn [flat_map games_with_ranking length seq map List.filter].
  rewrite ranking_prints_app, IHcount, length_app, IHlist.
  rewrite onGameFinished_prints by (trivial; lia). rewrite Hg.
  now destruct (multiple_of _ _).
Qed.

(** C3.  Let the rating interval be [r >= 0] and let [n] games finish,
    the tournament counting each before it signals it.  The games after
    which the ranking is printed are the games [k] of 1..n with [r > 0]
    and [k] a multiple of [r], once each; at the end of the tournament
    the ranking is printed once more exactly when [r = 0] or [n] is not
    a multiple of [r] (so for [r = 0] it is printed once, at the end);
    and these are all the calls of [printRanking] of the run. *)
Theorem ranking_is_printed_every_interval
        (em : EngineMatch) (games : list finished_game) (final : Tournament)
        (Hinterval : 0 <= m_ratingInterval em)
        (Hcounts : counts_in_order games final) :
  let r := m_ratingInterval em in
  let n := Z.of_nat (length games) in
  games_with_ranking em 1 games =
    List.filter (multiple_of r) (first_games (length games)) /\
  (forall k : Z, In k (games_with_ranking em 1 games) <->
                 1 <= k <= n /\ 0 < r /\ (r | k)) /\
  NoDup (games_with_ranking em 1 games) /\
  (r = 0 -> games_with_ranking em 1 games = [] /\
            ranking_prints (onTournamentFinished em final) = 1%nat) /\
  (0 < r ->
   (ranking_prints (onTournamentFinished em final) = 1%nat <-> ~ (r | n)) /\
   (ranking_prints (onTournamentFinished em final) = 0%nat <-> (r | n))) /\
  ranking_prints (match_reports em games final) =
    (length (games_with_ranking em 1 games)
     + ranking_prints (onTournamentFinished em final))%nat.
Proof.
  intros r n. destruct Hcounts as [Hgames Hfinal].
  destruct (games_with_ranking_counts em games Hinterval 1 Hgames)
    as [Hlist Hcount].
  change (Z.of_nat 1) with 1 in Hlist, Hcount.
  fold r in Hlist. fold (first_games (length games)) in Hlist.
  assert (Hmult : forall k, 0 < r -> (k mod r =? 0) = true <-> (r | k)).
  { intros k Hpos. rewrite Z.eqb_eq. apply Z.mod_divide. lia. }
  assert (Hrange : forall k, In k (first_games (length games)) <->
                             1 <= k <= n).
  { intros k. unfold first_games. rewrite in_map_iff. split.
    - intros (j & <- & Hj). apply in_seq in Hj. lia.
    - intros Hk. exists (Z.to_nat k). split; [lia|]. apply in_seq. lia. }
  split; [exact Hlist|]. split; [|split; [|split; [|split]]].
  - intros k. rewrite Hlist, filter_In, Hrange. unfold multiple_of.
    rewrite andb_true_iff, Z.ltb_lt. split.
    + intros (Hk & Hpos & Hdiv). repeat split; try lia. now apply Hmult.
    + intros (Hk & Hpos & Hdiv). repeat split; try lia. now apply Hmult.
  - rewrite Hlist. apply NoDup_filter. unfold first_games.
    apply Finite.Injective_map_NoDup; [|apply seq_NoDup].
    intros x y. lia.
  - intros Hzero. split.
    + rewrite Hlist, Hzero. apply no_multiple_of_zero.
    + rewrite onTournamentFinished_prints. fold r. now rewrite Hzero.
  - intros Hpos. rewrite onTournamentFinished_prints. fold r.
    rewrite Hfinal. fold n.
    destruct (Z.eqb_spec r 0) as [Hr0|_]; [lia|]. simpl.
    rewrite Z.rem_mod_nonneg by lia.
    specialize (Hmult n Hpos).
    destruct (n mod r =? 0); simpl.
    * assert (Hdiv : (r | n)) by now apply Hmult.
      split; split; trivial; try discriminate. intros Hnot. contradiction.
    * assert (Hnot : ~ (r | n))
        by (intros Hdiv; apply Hmult in Hdiv; discriminate).
      split; split; trivial; try discriminate. intros Hdiv. contradiction.
  - unfold match_reports. now rewrite ranking_prints_app, Hcount.
Qed.

(** The scenario of C3: with an interval of 5 and 12 finished games the
    ranking is printed after game 5, after game 10, and once at the end:
    three times in all. *)
Lemma interval_five_twelve_games :
  games_with_ranking interval_five 1 twelve_games = [5; 10] /\
  ranking_prints (onTournamentFinished interval_five (tournament_after 12))
  = 1%nat /\
  ranking_prints
    (match_reports interval_five twelve_games (tournament_after 12)) = 3%nat.
Proof.
  destruct (ranking_is_printed_every_interval
              interval_five twelve_games (tournament_after 12))
    as (Hlist & _ & _ & _ & Hend & Hall).
  - simpl. lia.
  - split; reflexivity.
  - assert (Hone : ranking_prints
                     (onTournamentFinished interval_five (tournament_after 12))
                   = 1%nat).
    { apply Hend; [reflexivity|]. intros [q Hq]. simpl in Hq. lia. }
    rewrite Hall, Hone, Hlist. repeat split; reflexivity.
Defined.

(* ================================================================== *)
(** * The verdict of the sequential tester (C7) *)
(* ================================================================== *)

Lemma update_keeps_verdict (step : SequentialTester.Outcome -> R)
      (st : SequentialTester.State) (outcome : SequentialTester.Outcome) :
  SequentialTester.verdict st <> Sprt.Continuing ->
  SequentialTester.verdict (SequentialTester.update step st outcome) =
  SequentialTester.verdict st.
Proof.
  intros Haccepted. unfold SequentialTester.update. simpl.
  now destruct (SequentialTester.verdict st).
Qed.

Lemma updates_app (step : SequentialTester.Outcome -> R)
      (st : SequentialTester.State)
      (before after : list SequentialTester.Outcome) :
  SequentialTester.updates step st (before ++ after) =
  SequentialTester.updates step (SequentialTester.updates step st before)
                           after.
Proof. unfold SequentialTester.updates. apply fold_left_app. Qed.

(** C7.  Whatever games have been fed to the sequential tester, once its
    verdict is [AcceptH0] or [AcceptH1] the verdict after any further
    updates is the same: it does not go back to [Continuing] and does
    not switch to the other acceptance. *)
Theorem sprt_verdict_is_sticky
        (step : SequentialTester.Outcome -> R)
        (st : SequentialTester.State)
        (before after : list SequentialTester.Outcome)
        (Haccepted :
           SequentialTester.verdict (SequentialTester.updates step st before)
           <> Sprt.Continuing) :
  SequentialTester.verdict
    (SequentialTester.updates step st (before ++ after)) =
  SequentialTester.verdict (SequentialTester.updates step st before).
Proof.
  rewrite updates_app.
  generalize dependent (SequentialTester.updates step st before).
  induction after as [|outcome after IH]; intros reached Haccepted; trivial.
  unfold SequentialTester.updates in *. simpl.
  rewrite IH; rewrite update_keeps_verdict; trivial.
Qed.

Lemma sprt_verdict_is_sticky_witness :
  SequentialTester.verdict
    (SequentialTester.updates SequentialTester.unit_step
       SequentialTester.accepted_H1
       ([] ++ [SequentialTester.Loss; SequentialTester.Loss;
               SequentialTester.Loss])) =
  Sprt.AcceptH1.
Proof.
  apply (sprt_verdict_is_sticky SequentialTester.unit_step
           SequentialTester.accepted_H1 []
           [SequentialTester.Loss; SequentialTester.Loss;
            SequentialTester.Loss]).
  simpl. discriminate.
Defined.

(* ================================================================== *)
(** * The Elo difference as a function of the counters *)
(* ================================================================== *)

Lemma eloDiff_of_fin (p : PlayerData) (r : R) :
  ratio_of p = Fin r -> eloDiff_of p = eloDiff_of_ratio (Fin r).
Proof. unfold eloDiff_of. now intros ->. Qed.

(** The ratio of a player with games, as a real number. *)
Lemma ratio_of_real (p : PlayerData) :
  counters_ok p -> 0 < total_of p ->
  ratio_of p = Fin (IZR (score_of p) / IZR (total_of p)) /\
  (0 <= IZR (score_of p) / IZR (total_of p) <= 1)%R /\
  (0 < IZR (total_of p))%R.
Proof.
  intros Hok Hg. apply has_games_true in Hg.
  destruct (ratio_of_fin p Hok Hg) as (r & Hr & Hrange & ->).
  repeat split; trivial; try apply Hrange.
  apply IZR_lt. now apply has_games_true.
Qed.

Lemma qlt_fin (a b : R) : qlt (Fin a) (Fin b) = true <-> (a < b)%R.
Proof.
  simpl. destruct (Rlt_dec a b); split; trivial; try discriminate.
  contradiction.
Qed.

Lemma inverse_minus_one_pos (r : R) : (0 < r < 1)%R -> (0 < 1 / r - 1)%R.
Proof.
  intros Hr. assert (1 < 1 / r)%R; [|lra].
  unfold Rdiv. rewrite Rmult_1_l, <- Rinv_1 at 1.
  apply Rinv_lt_contravar; lra.
Qed.

Lemma elo_real_lt (r1 r2 : R) :
  (0 < r1)%R -> (r1 < r2)%R -> (r2 < 1)%R ->
  (-400 * ln (1 / r1 - 1) / ln 10 < -400 * ln (1 / r2 - 1) / ln 10)%R.
Proof.
  intros H0 H12 H1. pose proof ln_10_pos as H10.
  assert (Hln : (ln (1 / r2 - 1) < ln (1 / r1 - 1))%R).
  { apply ln_increasing; [apply inverse_minus_one_pos; lra|].
    assert (/ r2 < / r1)%R by (apply Rinv_lt_contravar; nra). lra. }
  unfold Rdiv at 1 3. apply Rmult_lt_compat_r; [now apply Rinv_0_lt_compat|].
  lra.
Qed.

(** The formula of line 181 grows with the ratio, from minus infinity
    at 0 to plus infinity at 1. *)
Lemma eloDiff_of_ratio_lt (r1 r2 : R) :
  (0 <= r1)%R -> (r1 < r2)%R -> (r2 <= 1)%R ->
  qlt (eloDiff_of_ratio (Fin r1)) (eloDiff_of_ratio (Fin r2)) = true.
Proof.
  intros H0 H12 H1.
  destruct (eloDiff_of_ratio_cases r1) as [[E1 ->]|[[E1 ->]|[E1 ->]]];
    try lra;
    destruct (eloDiff_of_ratio_cases r2) as [[E2 ->]|[[E2 ->]|[E2 ->]]];
    try lra; trivial.
  apply qlt_fin. apply elo_real_lt; lra.
Qed.

Lemma eloDiff_of_ratio_lt_iff (r1 r2 : R) :
  (0 <= r1 <= 1)%R -> (0 <= r2 <= 1)%R ->
  qlt (eloDiff_of_ratio (Fin r1)) (eloDiff_of_ratio (Fin r2)) = true
  <-> (r1 < r2)%R.
Proof.
  intros H1 H2. split; [|intros; apply eloDiff_of_ratio_lt; lra].
  intros Hlt. destruct (total_order_T r1 r2) as [[H|H]|H]; trivial.
  - subst. rewrite qlt_irrefl in Hlt. discriminate.
  - assert (Hgt := eloDiff_of_ratio_lt r2 r1 (proj1 H2) H (proj2 H1)).
    assert (Hrefl := qlt_trans _ _ _ Hlt Hgt).
    rewrite qlt_irrefl in Hrefl. discriminate.
Qed.

Lemma eloDiff_of_ratio_eq_iff (r1 r2 : R) :
  (0 <= r1 <= 1)%R -> (0 <= r2 <= 1)%R ->
  eloDiff_of_ratio (Fin r1) = eloDiff_of_ratio (Fin r2) <-> r1 = r2.
Proof.
  intros H1 H2. split; [|now intros ->].
  intros Heq. destruct (total_order_T r1 r2) as [[H|H]|H]; trivial.
  - assert (Hlt := eloDiff_of_ratio_lt r1 r2 (proj1 H1) H (proj2 H2)).
    rewrite Heq, qlt_irrefl in Hlt. discriminate.
  - assert (Hlt := eloDiff_of_ratio_lt r2 r1 (proj1 H2) H (proj2 H1)).
    rewrite Heq, qlt_irrefl in Hlt. discriminate.
Qed.

(** Comparing two quotients of integers with positive denominators. *)
Lemma quotient_lt_cross (a b c d : Z) :
  0 < b -> 0 < d ->
  (IZR a / IZR b < IZR c / IZR d)%R <-> a * d < c * b.
Proof.
  intros Hb Hd. apply IZR_lt in Hb as Hb', Hd as Hd'.
  assert (Hiff : (IZR a / IZR b < IZR c / IZR d)%R <->
                 (IZR a * IZR d < IZR c * IZR b)%R).
  { split; intros H.
    - apply Rmult_lt_reg_r with (/ IZR b * / IZR d)%R;
        [apply Rmult_lt_0_compat; now apply Rinv_0_lt_compat|].
      replace (IZR a * IZR d * (/ IZR b * / IZR d))%R
        with (IZR a / IZR b)%R by (field; lra).
      replace (IZR c * IZR b * (/ IZR b * / IZR d))%R
        with (IZR c / IZR d)%R by (field; lra).
      exact H.
    - apply Rmult_lt_reg_r with (IZR b * IZR d)%R;
        [now apply Rmult_lt_0_compat|].
      replace (IZR a / IZR b * (IZR b * IZR d))%R
        with (IZR a * IZR d)%R by (field; lra).
      replace (IZR c / IZR d * (IZR b * IZR d))%R
        with (IZR c * IZR b)%R by (field; lra).
      exact H. }
  rewrite Hiff, <- !mult_IZR. split; [apply lt_IZR|apply IZR_lt].
Qed.

Lemma quotient_eq_cross (a b c d : Z) :
  0 < b -> 0 < d ->
  (IZR a / IZR b = IZR c / IZR d)%R <-> a * d = c * b.
Proof.
  intros Hb Hd. apply IZR_lt in Hb as Hb', Hd as Hd'.
  split; intros H.
  - apply eq_IZR. rewrite !mult_IZR.
    replace (IZR a * IZR d)%R with (IZR a / IZR b * (IZR b * IZR d))%R
      by (field; lra).
    rewrite H. field. lra.
  - apply (f_equal IZR) in H. rewrite !mult_IZR in H.
    replace (IZR a / IZR b)%R with (IZR a * IZR d * (/ IZR b * / IZR d))%R
      by (field; lra).
    rewrite H. field. lra.
Qed.

(** X2.  Between two players with finished games, the Elo difference
    of line 181 never reverses the order of the score ratios: a player
    with a smaller Elo difference has a smaller [score / total], a
    player with a smaller [score / total] never has the greater Elo
    difference, and players with the same [score / total] have the same
    Elo difference (the ratios compared by cross-multiplication of the
    integer counters). *)
Theorem elo_difference_keeps_order_of_score_ratio
        (p q : PlayerData)
        (Hp : counters_ok p) (Hq : counters_ok q)
        (Hpgames : 0 < total_of p) (Hqgames : 0 < total_of q) :
  (qlt (eloDiff_of p) (eloDiff_of q) = true ->
   score_of p * total_of q < score_of q * total_of p) /\
  (score_of p * total_of q < score_of q * total_of p ->
   qlt (eloDiff_of q) (eloDiff_of p) = false) /\
  (score_of p * total_of q = score_of q * total_of p ->
   eloDiff_of p = eloDiff_of q).
Proof.
  destruct (ratio_of_real p Hp Hpgames) as (Hrp & Hrangep & _).
  destruct (ratio_of_real q Hq Hqgames) as (Hrq & Hrangeq & _).
  rewrite (eloDiff_of_fin _ _ Hrp), (eloDiff_of_fin _ _ Hrq).
  split; [|split].
  - rewrite eloDiff_of_ratio_lt_iff by trivial. now apply quotient_lt_cross.
  - intros Hlt. apply quotient_lt_cross in Hlt; trivial.
    destruct (qlt _ _) eqn:Hrev; trivial.
    apply eloDiff_of_ratio_lt_iff in Hrev; trivial. lra.
  - intros Heq. apply quotient_eq_cross in Heq; trivial. now rewrite Heq.
Qed.

Lemma elo_difference_keeps_order_witness :
  qlt (eloDiff_of playerA) (eloDiff_of (mkPlayerData "B" 2 6 2)) = false.
Proof.
  apply (elo_difference_keeps_order_of_score_ratio
           (mkPlayerData "B" 2 6 2) playerA).
  - unfold counters_ok. simpl. lia.
  - unfold counters_ok. simpl. lia.
  - reflexivity.
  - reflexivity.
  - reflexivity.
Defined.

Lemma eloDiff_ratio_half : eloDiff_of_ratio (Fin (1 / 2)) = Fin 0.
Proof.
  destruct (eloDiff_of_ratio_cases (1 / 2)) as [[H _]|[[H _]|[_ ->]]];
    try lra.
  f_equal. replace (1 / (1 / 2) - 1)%R with 1%R by field.
  rewrite ln_1. unfold Rdiv. ring.
Qed.

(** X3.  The sign of the Elo difference of a player with finished games
    is the sign of [wins - losses]: it is zero exactly when wins and
    losses are equal, above zero exactly when there are more wins, and
    below zero exactly when there are more losses; draws do not change
    the sign. *)
Theorem elo_difference_sign
        (p : PlayerData)
        (Hcounters : counters_ok p)
        (Hgames : 0 < total_of p) :
  (eloDiff_of p = Fin 0 <-> wins p = losses p) /\
  (qlt (Fin 0) (eloDiff_of p) = true <-> losses p < wins p) /\
  (qlt (eloDiff_of p) (Fin 0) = true <-> wins p < losses p).
Proof.
  destruct (ratio_of_real p Hcounters Hgames) as (Hr & Hrange & Ht).
  rewrite (eloDiff_of_fin _ _ Hr), <- eloDiff_ratio_half.
  assert (Hhalf : (0 <= 1 / 2 <= 1)%R) by lra.
  rewrite eloDiff_of_ratio_eq_iff, !eloDiff_of_ratio_lt_iff by trivial.
  change (1 / 2)%R with (IZR 1 / IZR 2)%R.
  rewrite quotient_eq_cross, !quotient_lt_cross by (trivial; lia).
  unfold score_of, total_of in *. lia.
Qed.

Lemma elo_difference_sign_witness :
  qlt (Fin 0) (eloDiff_of playerA) = true <-> losses playerA < wins playerA.
Proof.
  apply (elo_difference_sign playerA).
  - unfold counters_ok. simpl. lia.
  - reflexivity.
Defined.

(* ================================================================== *)
(** * What the lines of [printRanking] carry *)
(* ================================================================== *)

Lemma printed_from_player (count : Z) (ps : list PlayerData) :
  forall (i : nat) (s : LoopState) (l : line),
  In l (printed (rankingLoop count i ps s)) ->
  In l (printed s) \/
  exists p : PlayerData,
    In p ps /\ has_games p = true /\ l = EloDifferenceLine (eloDiff_of p).
Proof.
  induction ps as [|p ps IH]; intros i s l Hin; [now left|].
  rewrite rankingLoop_cons in Hin.
  destruct (has_games p) eqn:Hg; [destruct (count =? 2)|].
  - simpl in Hin. apply in_app_or in Hin as [Hin|[<-|[]]]; [now left|].
    right. exists p. simpl. auto.
  - apply IH in Hin as [Hin|(q & Hq & Hgq & ->)]; [now left|].
    right. exists q. simpl. auto.
  - apply IH in Hin as [Hin|(q & Hq & Hgq & ->)]; [now left|].
    right. exists q. simpl. auto.
Qed.

Lemma fold_insert_from_player (ps : list PlayerData) :
  forall (m : QMultiMap Rank.RankingData) (x : qreal * Rank.RankingData),
  In x (fold_left insert_player ps m) ->
  In x m \/
  exists p : PlayerData,
    In p ps /\ x = (qneg (eloDiff_of p), rankingData_of p).
Proof.
  induction ps as [|p ps IH]; intros m x Hin; [now left|].
  simpl in Hin. apply IH in Hin as [Hin|(q & Hq & ->)].
  - apply insert_player_In in Hin as [->|Hin]; [|now left].
    right. exists p. simpl. auto.
  - right. exists q. simpl. auto.
Qed.

Lemma ranking_from_player (t : Tournament) (x : qreal * Rank.RankingData) :
  In x (ranking (rankingLoop_of t)) ->
  exists p : PlayerData,
    In p (players t) /\ has_games p = true /\
    x = (qneg (eloDiff_of p), rankingData_of p).
Proof.
  destruct (Z.eq_dec (playerCount t) 2) as [Hc|Hc].
  - now rewrite no_table_for_two.
  - unfold rankingLoop_of. rewrite ranking_table by trivial.
    intros Hin. apply fold_insert_from_player in Hin as [[]|(p & Hp & ->)].
    apply filter_In in Hp as [Hp Hg]. eauto.
Qed.

Lemma printRows_from_item (m : QMultiMap Rank.RankingData) (l : line) :
  forall rank : Z,
  In l (printRows rank m) ->
  exists (r : Z) (k : qreal) (d : Rank.RankingData),
    In (k, d) m /\
    l = RowLine r (Rank.name d) (qneg k) (Rank.games d)
                (qmul (Rank.score d) (Fin 100))
                (qmul (Rank.draws d) (Fin 100)).
Proof.
  induction m as [|[k d] m IH]; intros rank Hin; [destruct Hin|].
  destruct Hin as [<-|Hin].
  - exists (rank + 1), k, d. split; trivial. now left.
  - destruct (IH _ Hin) as (r & k' & d' & Hin' & ->).
    exists r, k', d'. split; trivial. now right.
Qed.

(** Every line of [printRanking] is the "ELO difference" line or a row
    of a player with a finished game, the header, or the SPRT line. *)
Lemma printRanking_lines (t : Tournament) (l : line) :
  In l (printRanking t) ->
  (exists p : PlayerData,
     In p (players t) /\ has_games p = true /\
     (l = EloDifferenceLine (eloDiff_of p) \/
      exists rank : Z, l = row_of rank p)) \/
  l = HeaderLine \/ is_sprt_line l = true.
Proof.
  rewrite playerCount_rankingLoop. intros Hin.
  apply in_app_or in Hin as [Hin|Hin].
  - apply printed_from_player in Hin as [[]|(p & Hp & Hg & ->)].
    left. exists p. auto.
  - apply in_app_or in Hin as [Hin|Hin].
    + unfold printTable in Hin. apply in_app_or in Hin as [Hin|Hin].
      * destruct (qmm_isEmpty _); [destruct Hin|].
        destruct Hin as [<-|[]]. auto.
      * apply printRows_from_item in Hin as (r & k & d & Hin & ->).
        apply ranking_from_player in Hin as (p & Hp & Hg & [= -> ->]).
        left. exists p. repeat split; trivial. right. exists r.
        unfold row_of. now rewrite qneg_involutive.
    + right. right. rewrite <- printSprt_sprt in Hin.
      now apply filter_In in Hin.
Qed.

(** X4.  When the counters are game counts, every Elo difference that
    [printRanking] writes, on the "ELO difference" line or on a row, is
    the Elo difference of one of the players with a finished game, and
    it is never NaN. *)
Theorem written_elo_is_never_nan
        (t : Tournament) (l : line) (e : qreal)
        (Hcounters : Forall counters_ok (players t))
        (Hline : In l (printRanking t))
        (Helo : elo_on l = Some e) :
  is_nan e = false /\
  exists p : PlayerData,
    In p (players t) /\ 0 < total_of p /\ e = eloDiff_of p.
Proof.
  assert (Hp : exists p, In p (players t) /\ has_games p = true /\
                         e = eloDiff_of p).
  { destruct (printRanking_lines t l Hline)
      as [(p & Hp & Hg & [->|[r ->]])|[->|Hs]].
    - injection Helo as <-. eauto.
    - injection Helo as <-. eauto.
    - discriminate.
    - destruct l; discriminate. }
  destruct Hp as (p & Hp & Hg & ->).
  rewrite List.Forall_forall in Hcounters.
  split; [apply eloDiff_not_nan; auto|].
  exists p. repeat split; trivial. now apply has_games_true.
Qed.

Lemma written_elo_witness :
  is_nan (eloDiff_of playerA) = false /\
  exists p : PlayerData,
    In p (players scenario_match) /\ 0 < total_of p /\
    eloDiff_of playerA = eloDiff_of p.
Proof.
  apply (written_elo_is_never_nan scenario_match
           (EloDifferenceLine (eloDiff_of playerA))).
  - repeat (apply Forall_cons; [unfold counters_ok; simpl; lia|]).
    apply Forall_nil.
  - rewrite playerCount_rankingLoop.
    rewrite (two_players_loop_first scenario_match playerA) by reflexivity.
    now left.
  - reflexivity.
Defined.

Lemma printRows_ranks (m : QMultiMap Rank.RankingData) :
  forall rank : Z,
  map row_rank (printRows rank m) =
  map (fun i => rank + Z.of_nat i) (seq 1 (length m)).
Proof.
  induction m as [|[k d] m IH]; intros rank; trivial.
  simpl. rewrite IH. f_equal; try lia.
  rewrite <- (seq_shift (length m) 1), map_map.
  apply map_ext. intros i. lia.
Qed.

Lemma ranking_length (t : Tournament) :
  playerCount t <> 2 ->
  length (ranking (rankingLoop_of t)) =
  length (List.filter has_games (players t)).
Proof.
  intros Hc. unfold rankingLoop_of. rewrite ranking_table by trivial.
  rewrite <- (length_map snd).
  rewrite (Permutation_length (fold_insert_perm _ _)).
  simpl. now rewrite app_nil_r, length_map.
Qed.

(** X5.  When the player count is not 2, the table of [printRanking]
    has one row per player with a finished game, the rows carry the
    ranks 1, 2, ... in this order, the header is written once when
    there is a row and not at all when there is none, and it is the
    first line of the output. *)
Theorem table_has_consecutive_ranks
        (t : Tournament)
        (Hcount : playerCount t <> 2) :
  let m := length (List.filter has_games (players t)) in
  map row_rank (List.filter is_row (printRanking t)) = first_games m /\
  length (List.filter is_header (printRanking t))
  = (if (m =? 0)%nat then 0 else 1)%nat /\
  (m <> 0%nat -> exists rest : list line, printRanking t = HeaderLine :: rest).
Proof.
  intros m. pose proof (ranking_length t Hcount) as Hlen. fold m in Hlen.
  assert (Hprinted : printed (rankingLoop_of t) = []).
  { unfold rankingLoop_of. now rewrite printed_table. }
  split; [|split].
  - rewrite rows_of_printRanking, printRows_ranks, Hlen.
    unfold first_games. apply map_ext. intros i. lia.
  - rewrite playerCount_rankingLoop, Hprinted. simpl.
    rewrite List.filter_app. unfold printTable.
    rewrite List.filter_app, length_app, length_app.
    assert (Hrows : forall rank rows,
               List.filter is_header (printRows rank rows) = []).
    { intros rank rows. revert rank.
      induction rows as [|[k d] rows IH]; intros rank; simpl; auto. }
    assert (Hsprt : List.filter is_header (printSprt (sprt_status t)) = []).
    { unfold printSprt. now destruct (_ || _). }
    rewrite Hrows, Hsprt. simpl.
    destruct (ranking (rankingLoop_of t)) as [|x rows]; simpl in *;
      subst m; rewrite <- Hlen; reflexivity.
  - intros Hm. rewrite playerCount_rankingLoop, Hprinted. simpl.
    unfold printTable.
    destruct (ranking (rankingLoop_of t)) as [|x rows]; simpl in *;
      [congruence|].
    eexists. reflexivity.
Qed.

Lemma table_has_consecutive_ranks_witness :
  map row_rank (List.filter is_row (printRanking level_match)) = [1; 2; 3].
Proof.
  apply (table_has_consecutive_ranks level_match). discriminate.
Defined.

Lemma percent_range (a b : Z) :
  0 <= a <= b -> 0 < b ->
  qmul (qdiv (of_int a) (of_int b)) (Fin 100) = Fin (IZR a / IZR b * 100) /\
  (0 <= IZR a / IZR b * 100 <= 100)%R.
Proof.
  intros [Ha Hab] Hb.
  apply IZR_le in Ha, Hab. apply IZR_lt in Hb.
  unfold of_int. rewrite qdiv_fin by lra. split; [reflexivity|].
  assert (Hq : (0 <= IZR a / IZR b <= 1)%R).
  { split.
    - apply Rmult_le_pos; trivial. left. now apply Rinv_0_lt_compat.
    - apply Rmult_le_reg_r with (IZR b); trivial.
      unfold Rdiv. rewrite Rmult_assoc, Rinv_l by lra. lra. }
  lra.
Qed.

(** X6.  When the counters are game counts, every row that
    [printRanking] writes is the row of a player with a finished game:
    its games column is [wins + losses + draws], at least 1, and its
    score and draws columns are finite percentages between 0 and 100,
    the score being [(2 wins + draws) / (2 games)] and the draws
    [draws / games]. *)
Theorem row_columns_are_percentages
        (t : Tournament) (l : line)
        (Hcounters : Forall counters_ok (players t))
        (Hline : In l (printRanking t))
        (Hrow : is_row l = true) :
  exists (rank : Z) (p : PlayerData) (s d : R),
    In p (players t) /\
    l = RowLine rank (builder_name p) (eloDiff_of p)
                (wins p + losses p + draws p) (Fin s) (Fin d) /\
    1 <= wins p + losses p + draws p /\
    s = (IZR (2 * wins p + draws p)
         / IZR (2 * (wins p + losses p + draws p)) * 100)%R /\
    d = (IZR (draws p) / IZR (wins p + losses p + draws p) * 100)%R /\
    (0 <= s <= 100)%R /\ (0 <= d <= 100)%R.
Proof.
  destruct (printRanking_lines t l Hline)
    as [(p & Hp & Hg & [->|[rank ->]])|[->|Hs]]; try discriminate;
    [|destruct l; discriminate].
  rewrite List.Forall_forall in Hcounters.
  destruct (Hcounters p Hp) as (Hw & Hl & Hd).
  apply has_games_true in Hg. unfold total_of in Hg.
  set (g := wins p + losses p + draws p) in *.
  destruct (percent_range (score_of p) (total_of p)) as [Hs Hsr];
    [unfold score_of, total_of; lia..|].
  destruct (percent_range (draws p * 2) (total_of p)) as [Hdr Hdrr];
    [unfold total_of; lia..|].
  assert (Hgpos : (0 < IZR g)%R) by (apply IZR_lt; lia).
  assert (Hdraws : (IZR (draws p * 2) / IZR (total_of p) * 100
                    = IZR (draws p) / IZR g * 100)%R).
  { unfold total_of. fold g. rewrite !mult_IZR. field. lra. }
  exists rank, p, (IZR (score_of p) / IZR (total_of p) * 100)%R,
    (IZR (draws p) / IZR g * 100)%R.
  split; trivial. split; [|split; [lia|split; [|split; [trivial|split]]]].
  - unfold row_of. unfold ratio_of. rewrite Hs, Hdr, Hdraws.
    f_equal. unfold total_of. fold g. now rewrite Z.quot_mul by lia.
  - unfold score_of, total_of. fold g.
    now replace (wins p * 2 + draws p) with (2 * wins p + draws p) by lia;
      replace (g * 2) with (2 * g) by lia.
  - exact Hsr.
  - rewrite <- Hdraws. exact Hdrr.
Qed.

Lemma row_columns_witness :
  exists (rank : Z) (p : PlayerData) (s d : R),
    In p (players level_match) /\
    row_of 1 (mkPlayerData "C" 1 1 0) =
    RowLine rank (builder_name p) (eloDiff_of p)
            (wins p + losses p + draws p) (Fin s) (Fin d) /\
    1 <= wins p + losses p + draws p /\
    s = (IZR (2 * wins p + draws p)
         / IZR (2 * (wins p + losses p + draws p)) * 100)%R /\
    d = (IZR (draws p) / IZR (wins p + losses p + draws p) * 100)%R /\
    (0 <= s <= 100)%R /\ (0 <= d <= 100)%R.
Proof.
  apply (row_columns_are_percentages level_match).
  - repeat (apply Forall_cons; [unfold counters_ok; simpl; lia|]).
    apply Forall_nil.
  - rewrite playerCount_rankingLoop. apply in_or_app. right.
    apply in_or_app. left. rewrite level_ranking.
    unfold printTable, row_of. simpl. right. left.
    now rewrite qneg_involutive.
  - reflexivity.
Defined.

(* ================================================================== *)
(** * The cache of opening books over the life of a match *)
(* ================================================================== *)

Lemma isEmpty_false (f : string) : isEmpty f = false -> f <> EmptyString.
Proof. now destruct f. Qed.

Lemma cache_ok_new : cache_ok EngineMatch_new.
Proof.
  unfold cache_ok, EngineMatch_new. simpl.
  split; [apply lookup_empty|]. split; [|split].
  - intros f b. rewrite lookup_empty. discriminate.
  - intros f1 f2 b. rewrite lookup_empty. discriminate.
  - now rewrite map_size_empty.
Qed.

(** The three ways a call of [addOpeningBook] can go. *)
Lemma addOpeningBook_cases (read : string -> bool) (fileName : string)
      (em : EngineMatch) :
  (exists book : OpeningBookPtr,
     addOpeningBook read fileName em = (book, em, []) /\
     (isEmpty fileName = true /\ book = None \/
      isEmpty fileName = false /\ exists b : nat,
        book = Some b /\ m_books em !! fileName = Some b)) \/
  (isEmpty fileName = false /\ m_books em !! fileName = None /\
   read fileName = false /\
   addOpeningBook read fileName em =
   (None, em, [ReadFile fileName; CantReadWarning fileName])) \/
  (isEmpty fileName = false /\ m_books em !! fileName = None /\
   read fileName = true /\
   addOpeningBook read fileName em =
   (Some (next_book em),
    {| m_books := <[fileName := next_book em]> (m_books em);
       m_debug := m_debug em;
       m_ratingInterval := m_ratingInterval em;
       next_book := S (next_book em) |},
    [ReadFile fileName])).
Proof.
  unfold addOpeningBook.
  destruct (isEmpty fileName) eqn:Hname; [left; eauto|].
  destruct (m_books em !! fileName) as [b|] eqn:Hbook.
  - left. exists (Some b). split; trivial. right. eauto.
  - destruct (read fileName); [right; right|right; left]; auto.
Qed.

Lemma cache_ok_step (read : string -> bool) (fileName : string)
      (em : EngineMatch) :
  cache_ok em -> cache_ok (addOpeningBook read fileName em).1.2.
Proof.
  intros Hok.
  destruct (addOpeningBook_cases read fileName em)
    as [(book & -> & _)|[(_ & _ & _ & ->)|(Hname & Hnew & _ & ->)]];
    trivial.
  destruct Hok as (Hempty & Hlive & Hinj & Hnext).
  apply isEmpty_false in Hname. unfold cache_ok. simpl.
  split; [|split; [|split]].
  - rewrite lookup_insert_ne; trivial.
  - intros f b. destruct (decide (fileName = f)) as [<-|Hne].
    + rewrite lookup_insert_eq. intros [= <-]. lia.
    + rewrite lookup_insert_ne by trivial. intros Hb.
      specialize (Hlive f b Hb). lia.
  - intros f1 f2 b.
    destruct (decide (fileName = f1)) as [<-|Hne1],
             (decide (fileName = f2)) as [<-|Hne2]; trivial.
    + rewrite lookup_insert_eq, lookup_insert_ne by trivial.
      intros [= <-] Hb. specialize (Hlive f2 _ Hb). lia.
    + rewrite lookup_insert_eq, lookup_insert_ne by trivial.
      intros Hb [= <-]. specialize (Hlive f1 _ Hb). lia.
    + rewrite !lookup_insert_ne by trivial. apply Hinj.
  - rewrite map_size_insert_None by trivial. now rewrite Hnext.
Qed.

Lemma addOpeningBooks_cons (read : string -> bool) (fileName : string)
      (calls : list book_call) (em : EngineMatch) :
  addOpeningBooks ((read, fileName) :: calls) em =
  ((addOpeningBooks calls (addOpeningBook read fileName em).1.2).1,
   (addOpeningBook read fileName em).2
   ++ (addOpeningBooks calls (addOpeningBook read fileName em).1.2).2).
Proof.
  simpl. destruct (addOpeningBook read fileName em) as [[book em'] effects].
  simpl. now destruct (addOpeningBooks calls em') as [em'' effects'].
Qed.

Lemma cache_ok_calls (calls : list book_call) :
  forall em : EngineMatch,
  cache_ok em -> cache_ok (addOpeningBooks calls em).1.
Proof.
  induction calls as [|[read fileName] calls IH]; intros em Hok; trivial.
  rewrite addOpeningBooks_cons. simpl. apply IH. now apply cache_ok_step.
Qed.

(** X7.  At any time in the life of a match (after any calls of
    [addOpeningBook] on a new match), what a call returns is what the
    cache holds under the file name after the call: a book when the
    name is cached or was just loaded, the null pointer when the load
    failed or the name is empty. *)
Theorem returned_book_is_the_cached_book
        (calls : list book_call) (read : string -> bool)
        (fileName : string) :
  let em := (addOpeningBooks calls EngineMatch_new).1 in
  (addOpeningBook read fileName em).1.1 =
  m_books (addOpeningBook read fileName em).1.2 !! fileName.
Proof.
  intros em.
  assert (Hok : cache_ok em) by apply cache_ok_calls, cache_ok_new.
  destruct Hok as (Hempty & _).
  destruct (addOpeningBook_cases read fileName em)
    as [(book & -> & [[Hname ->]|(_ & b & -> & Hb)])
       |[(_ & Hnew & _ & ->)|(_ & _ & _ & ->)]]; simpl.
  - destruct fileName; [now rewrite Hempty|discriminate].
  - now rewrite Hb.
  - now rewrite Hnew.
  - now rewrite lookup_insert_eq.
Qed.

Lemma EngineMatch_delete_spec (em : EngineMatch) (b : nat) :
  In b (EngineMatch_delete em) <->
  exists f : string, m_books em !! f = Some b.
Proof.
  unfold EngineMatch_delete. rewrite <- list_elem_of_In, list_elem_of_fmap.
  split.
  - intros ([f b'] & -> & Hin). apply elem_of_map_to_list in Hin. eauto.
  - intros [f Hf]. exists (f, b). split; trivial.
    now apply elem_of_map_to_list.
Qed.

Lemma NoDup_of_stdpp {A : Type} (l : list A) : base.NoDup l -> NoDup l.
Proof.
  induction 1 as [|x l Hx _ IH]; constructor; trivial.
  now rewrite <- list_elem_of_In.
Qed.

Lemma returned_books_cons (read : string -> bool) (fileName : string)
      (calls : list book_call) (em : EngineMatch) :
  returned_books ((read, fileName) :: calls) em =
  match (addOpeningBook read fileName em).1.1 with
  | Some b => [b]
  | None => []
  end ++ returned_books calls (addOpeningBook read fileName em).1.2.
Proof.
  simpl. destruct (addOpeningBook read fileName em) as [[[b|] em'] effects];
    reflexivity.
Qed.

(** The books of the cache after a sequence of calls are the books of
    the cache before it and the books the calls returned. *)
Lemma cached_books_after_calls (calls : list book_call) (b : nat) :
  forall em : EngineMatch,
  cache_ok em ->
  (In b (EngineMatch_delete (addOpeningBooks calls em).1) <->
   In b (EngineMatch_delete em) \/ In b (returned_books calls em)).
Proof.
  induction calls as [|[read fileName] calls IH]; intros em Hok.
  - simpl. tauto.
  - rewrite addOpeningBooks_cons, returned_books_cons. simpl fst.
    rewrite (IH _ (cache_ok_step read fileName em Hok)), in_app_iff.
    rewrite !EngineMatch_delete_spec.
    destruct (addOpeningBook_cases read fileName em)
      as [(book & -> & [[_ ->]|(_ & b' & -> & Hb')])
         |[(_ & _ & _ & ->)|(Hname & Hnew & _ & ->)]]; simpl.
    + tauto.
    + split; [tauto|]. intros [H|[[<-|[]]|H]]; eauto.
    + tauto.
    + split.
      * intros [[f Hf]|H]; [|tauto].
        destruct (decide (fileName = f)) as [<-|Hne].
        -- rewrite lookup_insert_eq in Hf. injection Hf as <-. tauto.
        -- rewrite lookup_insert_ne in Hf by trivial. eauto.
      * intros [[f Hf]|[[<-|[]]|H]]; [|left..|tauto].
        -- left. exists f. rewrite lookup_insert_ne; trivial. congruence.
        -- exists fileName. now rewrite lookup_insert_eq.
Qed.

(** X8.  When a match is deleted, after any calls of [addOpeningBook],
    [qDeleteAll(m_books)] deletes exactly the books that the calls
    returned, each of them once, and never the null pointer: two file
    names never share a book. *)
Theorem destructor_deletes_each_returned_book_once
        (calls : list book_call) :
  let em := (addOpeningBooks calls EngineMatch_new).1 in
  NoDup (EngineMatch_delete em) /\
  (forall b : nat,
     In b (EngineMatch_delete em) <->
     In b (returned_books calls EngineMatch_new)) /\
  ~ In 0%nat (EngineMatch_delete em).
Proof.
  intros em.
  assert (Hok : cache_ok em) by apply cache_ok_calls, cache_ok_new.
  destruct Hok as (_ & Hlive & Hinj & _).
  split; [|split].
  - unfold EngineMatch_delete. apply NoDup_of_stdpp.
    apply NoDup_fmap_2_strong; [|apply NoDup_map_to_list].
    intros [f1 b1] [f2 b2] H1 H2 Heq. simpl in Heq. subst b2.
    apply elem_of_map_to_list in H1, H2.
    now rewrite (Hinj f1 f2 b1 H1 H2).
  - intros b. unfold em.
    rewrite (cached_books_after_calls calls b _ cache_ok_new).
    rewrite EngineMatch_delete_spec. simpl. split; [|tauto].
    intros [[f Hf]|H]; trivial. rewrite lookup_empty in Hf. discriminate.
  - intros Hin. apply EngineMatch_delete_spec in Hin as [f Hf].
    specialize (Hlive f _ Hf). lia.
Qed.

Lemma effects_accounting (calls : list book_call) :
  forall em : EngineMatch,
  let em' := (addOpeningBooks calls em).1 in
  let effects := (addOpeningBooks calls em).2 in
  (length (List.filter is_read effects) + size (m_books em)
   = size (m_books em') + length (List.filter is_warning effects))%nat /\
  warnings_follow_reads effects = true.
Proof.
  induction calls as [|[read fileName] calls IH]; intros em; [now split|].
  cbv zeta. rewrite addOpeningBooks_cons. simpl fst. simpl snd.
  destruct (IH (addOpeningBook read fileName em).1.2) as [Hcount Hfollow].
  set (rest := addOpeningBooks calls (addOpeningBook read fileName em).1.2)
    in *.
  rewrite !List.filter_app, !length_app.
  destruct (addOpeningBook_cases read fileName em)
    as [(book & Hcall & _)|[(_ & _ & _ & Hcall)|(_ & Hnew & _ & Hcall)]];
    rewrite Hcall in *; simpl in *.
  - split; trivial.
  - split; [lia|]. now rewrite String.eqb_refl.
  - rewrite map_size_insert_None in Hcount by trivial.
    split; [lia|]. destruct (rest.2) as [|[g|g] effects]; trivial.
    discriminate.
Qed.

(** X9.  Over any calls of [addOpeningBook] on a new match, the number
    of books in the cache is the number of file reads less the number
    of warnings: every read either fails with one warning or adds one
    book; and every warning comes right after the read of the same
    file. *)
Theorem reads_are_books_and_warnings (calls : list book_call) :
  let em := (addOpeningBooks calls EngineMatch_new).1 in
  let effects := (addOpeningBooks calls EngineMatch_new).2 in
  length (List.filter is_read effects)
  = (size (m_books em) + length (List.filter is_warning effects))%nat /\
  warnings_follow_reads effects = true /\
  next_book em = S (size (m_books em)).
Proof.
  intros em effects.
  destruct (effects_accounting calls EngineMatch_new) as [Hcount Hfollow].
  fold em effects in Hcount, Hfollow.
  change (size (m_books EngineMatch_new)) with 0%nat in Hcount.
  split; [lia|]. split; trivial.
  apply (cache_ok_calls calls EngineMatch_new cache_ok_new).
Qed.

Lemma addOpeningBooks_frame (calls : list book_call) :
  forall em : EngineMatch,
  m_ratingInterval (addOpeningBooks calls em).1 = m_ratingInterval em /\
  m_debug (addOpeningBooks calls em).1 = m_debug em.
Proof.
  induction calls as [|[read fileName] calls IH]; intros em; [now split|].
  rewrite addOpeningBooks_cons. simpl fst.
  destruct (IH (addOpeningBook read fileName em).1.2) as [-> ->].
  destruct (addOpeningBook_cases read fileName em)
    as [(book & -> & _)|[(_ & _ & _ & ->)|(_ & _ & _ & ->)]]; now split.
Qed.

(** X10.  Loading opening books and configuring the match do not
    interfere.  Calls of [addOpeningBook] leave the rating interval and
    the debug flag as they are, so what [onGameFinished] and
    [onTournamentFinished] write and the connections that [start] makes
    (the debug connection among them) are the same before and after
    them.  [setRatingInterval] and [setDebugMode] change neither the
    cache nor what later calls of [addOpeningBook] read, report and
    cache. *)
Theorem books_and_configuration_are_independent
        (calls : list book_call) (em : EngineMatch)
        (t : Tournament) (game : ChessGame) (number : Z)
        (interval : Z) (debug : bool) :
  m_ratingInterval (addOpeningBooks calls em).1 = m_ratingInterval em /\
  m_debug (addOpeningBooks calls em).1 = m_debug em /\
  onGameFinished (addOpeningBooks calls em).1 t game number
  = onGameFinished em t game number /\
  onTournamentFinished (addOpeningBooks calls em).1 t
  = onTournamentFinished em t /\
  connections (start (new_object (addOpeningBooks calls em).1)).1
  = connections (start (new_object em)).1 /\
  (addOpeningBooks calls (setRatingInterval interval em)).2
  = (addOpeningBooks calls em).2 /\
  (addOpeningBooks calls (setDebugMode debug em)).2
  = (addOpeningBooks calls em).2 /\
  m_books (addOpeningBooks calls (setRatingInterval interval em)).1
  = m_books (addOpeningBooks calls em).1 /\
  m_books (addOpeningBooks calls (setDebugMode debug em)).1
  = m_books (addOpeningBooks calls em).1.
Proof.
  destruct (addOpeningBooks_frame calls em) as [Hinterval Hdebug].
  split; [exact Hinterval|]. split; [exact Hdebug|].
  split; [unfold onGameFinished; now rewrite Hinterval|].
  split; [unfold onTournamentFinished; now rewrite Hinterval|].
  split; [unfold start, new_object; simpl; now rewrite Hdebug|].
  assert (Hsame : forall em1 em2 : EngineMatch,
             m_books em1 = m_books em2 -> next_book em1 = next_book em2 ->
             (addOpeningBooks calls em1).2 = (addOpeningBooks calls em2).2 /\
             m_books (addOpeningBooks calls em1).1
             = m_books (addOpeningBooks calls em2).1).
  { clear. induction calls as [|[read fileName] calls IH];
      intros em1 em2 Hbooks Hnext; [now split|].
    rewrite !addOpeningBooks_cons. simpl fst. simpl snd.
    assert (Hstep : (addOpeningBook read fileName em1).2
                    = (addOpeningBook read fileName em2).2 /\
                    m_books (addOpeningBook read fileName em1).1.2
                    = m_books (addOpeningBook read fileName em2).1.2 /\
                    next_book (addOpeningBook read fileName em1).1.2
                    = next_book (addOpeningBook read fileName em2).1.2).
    { unfold addOpeningBook. rewrite Hbooks, Hnext.
      destruct (isEmpty fileName); [auto|].
      destruct (m_books em2 !! fileName); [auto|].
      destruct (read fileName); simpl; auto. }
    destruct Hstep as (-> & Hb & Hn).
    destruct (IH _ _ Hb Hn) as [-> ->]. now split. }
  destruct (Hsame (setRatingInterval interval em) em eq_refl eq_refl)
    as [-> ->].
  destruct (Hsame (setDebugMode debug em) em eq_refl eq_refl) as [-> ->].
  repeat split.
Qed.

(* ================================================================== *)
(** * How often the ranking is printed in a run *)
(* ================================================================== *)

Lemma div_succ (r n : Z) :
  0 < r -> 0 <= n ->
  (n + 1) / r = n / r + (if (n + 1) mod r =? 0 then 1 else 0).
Proof.
  intros Hr Hn.
  pose proof (Z.div_mod n r) as Hdm. pose proof (Z.mod_pos_bound n r Hr).
  pose proof (Z.div_mod (n + 1) r) as Hdm'.
  pose proof (Z.mod_pos_bound (n + 1) r Hr).
  destruct (Z.eqb_spec ((n + 1) mod r) 0) as [Hz|Hnz]; nia.
Qed.

Lemma ceiling_div (r n : Z) :
  0 < r -> 0 <= n ->
  (n + r - 1) / r = n / r + (if n mod r =? 0 then 0 else 1).
Proof.
  intros Hr Hn.
  pose proof (Z.div_mod n r) as Hdm. pose proof (Z.mod_pos_bound n r Hr).
  pose proof (Z.div_mod (n + r - 1) r) as Hdm'.
  pose proof (Z.mod_pos_bound (n + r - 1) r Hr).
  destruct (Z.eqb_spec (n mod r) 0) as [Hz|Hnz]; nia.
Qed.

Lemma first_games_succ (n : nat) :
  first_games (S n) = first_games n ++ [Z.of_nat (S n)].
Proof. unfold first_games. now rewrite seq_S, map_app. Qed.

(** The multiples of [r] among 1, ..., [n] are [n / r] many. *)
Lemma count_multiples (r : Z) (n : nat) :
  0 < r ->
  Z.of_nat (length (List.filter (multiple_of r) (first_games n)))
  = Z.of_nat n / r.
Proof.
  intros Hr. induction n as [|n IH].
  - simpl. now rewrite Z.div_0_l by lia.
  - rewrite first_games_succ, List.filter_app, length_app, Nat2Z.inj_add, IH.
    replace (Z.of_nat (S n)) with (Z.of_nat n + 1) by lia.
    rewrite div_succ by lia. f_equal. unfold multiple_of. simpl.
    destruct (Z.ltb_spec 0 r); [|lia]. simpl.
    now destruct ((Z.of_nat n + 1) mod r =? 0).
Qed.

(** X11.  With a rating interval [r > 0], a run of [n] finished games
    calls [printRanking] the ceiling of [n / r] times in all: [n / r]
    times after a game and once more at the end when [r] does not
    divide [n].  In particular a tournament without a finished game
    prints no ranking. *)
Theorem ranking_is_printed_ceiling_times
        (em : EngineMatch) (games : list finished_game) (final : Tournament)
        (Hinterval : 0 < m_ratingInterval em)
        (Hcounts : counts_in_order games final) :
  let r := m_ratingInterval em in
  let n := Z.of_nat (length games) in
  Z.of_nat (ranking_prints (match_reports em games final))
  = (n + r - 1) / r /\
  Z.of_nat (length (games_with_ranking em 1 games)) = n / r /\
  (n = 0 -> ranking_prints (match_reports em games final) = 0%nat).
Proof.
  intros r n. destruct Hcounts as [Hgames Hfinal].
  assert (Hr : 0 <= m_ratingInterval em) by lia.
  destruct (games_with_ranking_counts em games Hr 1 Hgames)
    as [Hlist Hcount].
  change (Z.of_nat 1) with 1 in Hlist, Hcount.
  fold r in Hlist. fold (first_games (length games)) in Hlist.
  assert (Hafter : Z.of_nat (length (games_with_ranking em 1 games)) = n / r)
    by (rewrite Hlist; now apply count_multiples).
  assert (Hend : Z.of_nat (ranking_prints (onTournamentFinished em final))
                 = if n mod r =? 0 then 0 else 1).
  { rewrite onTournamentFinished_prints. fold r. rewrite Hfinal. fold n.
    destruct (Z.eqb_spec r 0); [lia|]. simpl.
    rewrite Z.rem_mod_nonneg by lia. now destruct (n mod r =? 0). }
  assert (Hall : Z.of_nat (ranking_prints (match_reports em games final))
                 = (n + r - 1) / r).
  { unfold match_reports.
    rewrite ranking_prints_app, Hcount, Nat2Z.inj_add, Hafter, Hend.
    symmetry. apply ceiling_div; lia. }
  split; [exact Hall|]. split; [exact Hafter|].
  intros Hzero. rewrite Hzero in Hall.
  replace (0 + r - 1) with (r - 1) in Hall by lia.
  rewrite Z.div_small in Hall by lia. lia.
Qed.

Lemma ranking_is_printed_ceiling_times_witness :
  Z.of_nat (ranking_prints
              (match_reports interval_five twelve_games (tournament_after 12)))
  = (12 + 5 - 1) / 5.
Proof.
  apply (ranking_is_printed_ceiling_times
           interval_five twelve_games (tournament_after 12)).
  - reflexivity.
  - split; reflexivity.
Defined.

Lemma last_game_count (init : list finished_game) (g : finished_game)
      (final : Tournament) :
  counts_in_order (init ++ [g]) final ->
  finishedGameCount (fg_tournament g) = Z.of_nat (length (init ++ [g])) /\
  finishedGameCount final = Z.of_nat (length (init ++ [g])).
Proof.
  intros [Hgames Hfinal]. split; trivial.
  apply (f_equal (fun l => last l 0)) in Hgames.
  rewrite map_app in Hgames. simpl in Hgames. rewrite last_last in Hgames.
  rewrite Hgames, length_app. simpl length.
  rewrite Nat.add_1_r, seq_S, map_app. simpl. rewrite last_last. lia.
Qed.

Lemma onGameFinished_rankings (em : EngineMatch) (t : Tournament)
      (game : ChessGame) (number : Z) :
  0 <= m_ratingInterval em -> 0 <= finishedGameCount t ->
  List.filter is_ranking (onGameFinished em t game number) =
  if multiple_of (m_ratingInterval em) (finishedGameCount t)
  then [Ranking (printRanking t)] else [].
Proof.
  intros Hr Hc. unfold onGameFinished.
  rewrite !List.filter_app, rem_test by trivial.
  replace (List.filter is_ranking
             (if playerCount t =? 2
              then match playerAt t 0, playerAt t 1 with
                   | Some fcp, Some scp => _
                   | _, _ => []
                   end
              else [])) with (@nil report).
  - now destruct (multiple_of _ _).
  - destruct (playerCount t =? 2); trivial.
    now destruct (playerAt t 0), (playerAt t 1).
Qed.

Lemma onTournamentFinished_rankings (em : EngineMatch) (t : Tournament) :
  List.filter is_ranking (onTournamentFinished em t) =
  if (m_ratingInterval em =? 0)
     || negb (Z.rem (finishedGameCount t) (m_ratingInterval em) =? 0)
  then [Ranking (printRanking t)] else [].
Proof.
  unfold onTournamentFinished. rewrite !List.filter_app.
  replace (List.filter is_ranking
             (if isEmpty (errorString t) then []
              else [Warning (errorString t)])) with (@nil report)
    by now destruct (isEmpty _).
  now destruct (_ || _).
Qed.

(** [printRanking] reads the players and the SPRT status only. *)
Lemma printRanking_reads (t1 t2 : Tournament) :
  players t1 = players t2 -> sprt_status t1 = sprt_status t2 ->
  printRanking t1 = printRanking t2.
Proof.
  intros Hp Hs. unfold printRanking, rankingLoop_of, playerCount.
  now rewrite Hp, Hs.
Qed.

(** X12.  In a run of [n >= 1] finished games, whatever the rating
    interval [r >= 0], the last [gameFinished] signal and the
    [finished] signal both see [finishedGameCount = n], and the ranking
    is printed by exactly one of the two slots: by [onGameFinished] of
    the last game, and not by [onTournamentFinished], when [r > 0]
    divides [n]; by [onTournamentFinished], and not by [onGameFinished]
    of the last game, otherwise.  What is printed is [printRanking] of
    the tournament as the slot sees it; when the players and the SPRT
    status are the same at both signals, it is in either case the
    ranking of the final state, printed once. *)
Theorem final_standings_are_printed_once
        (em : EngineMatch) (init : list finished_game) (g : finished_game)
        (final : Tournament)
        (Hinterval : 0 <= m_ratingInterval em)
        (Hcounts : counts_in_order (init ++ [g]) final) :
  let r := m_ratingInterval em in
  let n := Z.of_nat (length (init ++ [g])) in
  let after_last :=
    List.filter is_ranking
      (onGameFinished em (fg_tournament g) (fg_game g) (fg_number g)) in
  let at_end := List.filter is_ranking (onTournamentFinished em final) in
  finishedGameCount (fg_tournament g) = n /\
  finishedGameCount final = n /\
  (0 < r /\ (r | n) ->
   after_last = [Ranking (printRanking (fg_tournament g))] /\ at_end = []) /\
  (~ (0 < r /\ (r | n)) ->
   after_last = [] /\ at_end = [Ranking (printRanking final)]) /\
  (players (fg_tournament g) = players final ->
   sprt_status (fg_tournament g) = sprt_status final ->
   after_last ++ at_end = [Ranking (printRanking final)]).
Proof.
  intros r n after_last at_end.
  destruct (last_game_count init g final Hcounts) as [Hg Hfinal].
  fold n in Hg, Hfinal.
  assert (Hn : 0 <= n) by (unfold n; lia).
  assert (Hafter : after_last =
                   if multiple_of r n
                   then [Ranking (printRanking (fg_tournament g))] else []).
  { unfold after_last. rewrite onGameFinished_rankings by lia.
    fold r. now rewrite Hg. }
  assert (Hend : at_end =
                 if multiple_of r n then []
                 else [Ranking (printRanking final)]).
  { unfold at_end. rewrite onTournamentFinished_rankings. fold r.
    rewrite Hfinal, <- (rem_test r n) by trivial.
    destruct (r =? 0); simpl; trivial. now destruct (Z.rem n r =? 0). }
  assert (Hmult : multiple_of r n = true <-> 0 < r /\ (r | n)).
  { unfold multiple_of. rewrite andb_true_iff, Z.ltb_lt, Z.eqb_eq. split.
    - intros [Hpos Hmod]. split; trivial. apply Z.mod_divide; trivial. lia.
    - intros [Hpos Hdiv]. split; trivial. apply Z.mod_divide; trivial. lia. }
  split; [exact Hg|]. split; [exact Hfinal|].
  rewrite Hafter, Hend. split; [|split].
  - intros Hdiv. apply Hmult in Hdiv. now rewrite Hdiv.
  - intros Hnot. destruct (multiple_of r n) eqn:Hm; [|now split].
    exfalso. apply Hnot. now apply Hmult.
  - intros Hp Hs. rewrite (printRanking_reads _ _ Hp Hs).
    now destruct (multiple_of r n).
Qed.

Lemma final_standings_witness :
  List.filter is_ranking
    (onGameFinished interval_five (tournament_after 12)
                    (mkChessGame "A" "B" "1/2-1/2") 12) = [] /\
  List.filter is_ranking
    (onTournamentFinished interval_five (tournament_after 12))
  = [Ranking (printRanking (tournament_after 12))].
Proof.
  apply (final_standings_are_printed_once
           interval_five
           (removelast twelve_games)
           (mkFinishedGame (mkChessGame "A" "B" "1/2-1/2") 12
                           (tournament_after 12))
           (tournament_after 12)).
  - simpl. lia.
  - split; reflexivity.
  - intros [_ [q Hq]]. simpl in Hq. lia.
Defined.

(* ================================================================== *)
(** * The transcript of a run *)
(* ================================================================== *)

Lemma onGameFinished_shape (em : EngineMatch) (t : Tournament)
      (game : ChessGame) (number : Z) :
  exists rest : list report,
    onGameFinished em t game number =
    FinishedGame number (white_name game) (black_name game)
                 (result_text game) :: rest /\
    finished_numbers rest = [] /\ warning_texts rest = [] /\
    List.filter is_finished_match rest = [].
Proof.
  unfold onGameFinished. eexists. split; [reflexivity|].
  unfold finished_numbers, warning_texts.
  rewrite !flat_map_app, !List.filter_app.
  destruct (playerCount t =? 2);
    [destruct (playerAt t 0), (playerAt t 1)|];
    destruct (negb _ && _); repeat split.
Qed.

Lemma onTournamentFinished_shape (em : EngineMatch) (t : Tournament) :
  finished_numbers (onTournamentFinished em t) = [] /\
  warning_texts (onTournamentFinished em t)
  = (if isEmpty (errorString t) then [] else [errorString t]) /\
  List.filter is_finished_match (onTournamentFinished em t) = [FinishedMatch] /\
  last (onTournamentFinished em t) (Warning EmptyString) = FinishedMatch.
Proof.
  unfold onTournamentFinished, finished_numbers, warning_texts.
  rewrite !flat_map_app, !List.filter_app, !app_assoc, last_last.
  destruct (_ || _); destruct (isEmpty (errorString t)); repeat split.
Qed.

(** X13.  The transcript of a run has one "Finished game" line for each
    [gameFinished] signal, in the order of the signals and with the
    number of the game; it has exactly one "Finished match" line, which
    is its last line; and it has one warning, the error text of the
    tournament, exactly when that text is not empty. *)
Theorem transcript_of_a_run
        (em : EngineMatch) (games : list finished_game) (final : Tournament) :
  finished_numbers (match_reports em games final) = map fg_number games /\
  List.filter is_finished_match (match_reports em games final)
  = [FinishedMatch] /\
  last (match_reports em games final) (Warning EmptyString) = FinishedMatch /\
  warning_texts (match_reports em games final)
  = (if isEmpty (errorString final) then [] else [errorString final]).
Proof.
  destruct (onTournamentFinished_shape em final)
    as (Hnum & Hwarn & Hfin & Hlast).
  unfold match_reports.
  assert (Hgames :
            finished_numbers
              (flat_map (fun g => onGameFinished em (fg_tournament g)
                                    (fg_game g) (fg_number g)) games)
            = map fg_number games /\
            warning_texts
              (flat_map (fun g => onGameFinished em (fg_tournament g)
                                    (fg_game g) (fg_number g)) games) = [] /\
            List.filter is_finished_match
              (flat_map (fun g => onGameFinished em (fg_tournament g)
                                    (fg_game g) (fg_number g)) games) = []).
  { induction games as [|g games (IHn & IHw & IHf)]; [now split|].
    destruct (onGameFinished_shape em (fg_tournament g) (fg_game g)
                                   (fg_number g))
      as (rest & Hshape & Hn & Hw & Hf).
    cbn [flat_map map]. rewrite Hshape.
    unfold finished_numbers, warning_texts in *.
    cbn [flat_map List.filter is_finished_match app].
    rewrite !flat_map_app, List.filter_app, Hn, Hw, Hf, IHn, IHw, IHf.
    now split. }
  destruct Hgames as (Hgn & Hgw & Hgf).
  unfold finished_numbers, warning_texts in *.
  rewrite !flat_map_app, List.filter_app, Hgn, Hgw, Hgf, Hnum, Hwarn, Hfin.
  rewrite app_nil_r. repeat split.
  unfold onTournamentFinished in *.
  rewrite !app_assoc, last_last. reflexivity.
Qed.

(** X14.  [onGameFinished] writes the score line exactly when there are
    two players, once, from the counters of the two: the first player's
    wins, the second player's wins, the first player's draws, the first
    player's score ratio (the ratio [printRanking] uses) and the first
    player's number of games.  The ratio is a number between 0 and 1
    when the first player has a finished game, and NaN (0/0, the
    division is not guarded here) when the first player has none. *)
Theorem score_line_of_two_players
        (em : EngineMatch) (t : Tournament) (game : ChessGame) (number : Z) :
  (playerCount t <> 2 ->
   List.filter is_score (onGameFinished em t game number) = []) /\
  (forall fcp scp : PlayerData,
     playerCount t = 2 ->
     playerAt t 0 = Some fcp -> playerAt t 1 = Some scp ->
     counters_ok fcp ->
     List.filter is_score (onGameFinished em t game number)
     = [Score (builder_name fcp) (builder_name scp)
              (wins fcp) (wins scp) (draws fcp) (ratio_of fcp)
              (wins fcp + losses fcp + draws fcp)] /\
     (0 < wins fcp + losses fcp + draws fcp ->
      exists r : R, ratio_of fcp = Fin r /\ (0 <= r <= 1)%R) /\
     (wins fcp + losses fcp + draws fcp = 0 -> ratio_of fcp = NaN)).
Proof.
  split.
  - intros Hc. apply Z.eqb_neq in Hc. unfold onGameFinished. rewrite Hc.
    simpl. now destruct (negb _ && _).
  - intros fcp scp Hc Hf Hs Hok. split; [|split].
    + unfold onGameFinished. rewrite Hc, Hf, Hs. simpl.
      now destruct (negb _ && _).
    + intros Hg. assert (Htotal : 0 < total_of fcp)
        by (unfold total_of; lia).
      destruct (ratio_of_real fcp Hok Htotal) as (Hr & Hrange & _). eauto.
    + intros Hzero. destruct Hok as (Hw & Hl & Hd).
      assert (Hall : wins fcp = 0 /\ losses fcp = 0 /\ draws fcp = 0) by lia.
      destruct Hall as (Hw0 & Hl0 & Hd0).
      unfold ratio_of, score_of, total_of, of_int.
      rewrite Hw0, Hl0, Hd0.
      change (0 * 2 + 0) with 0. change ((0 + 0 + 0) * 2) with 0.
      unfold qdiv, signed_inf. order_cases; trivial; try contradiction; lra.
Qed.

Lemma score_line_witness :
  List.filter is_score
    (onGameFinished interval_five scenario_match
                    (mkChessGame "A" "B" "1-0") 10)
  = [Score "A" "B" 6 2 2 (ratio_of playerA) 10].
Proof.
  apply (proj2 (score_line_of_two_players
                  interval_five scenario_match
                  (mkChessGame "A" "B" "1-0") 10)
               playerA (mkPlayerData "B" 2 6 2)).
  - reflexivity.
  - reflexivity.
  - reflexivity.
  - unfold counters_ok. simpl. lia.
Defined.

(* ================================================================== *)
(** * Signals and slots *)
(* ================================================================== *)

(** The connections one call of [start] makes. *)
Lemma start_connections (obj : MatchObject) :
  connections (start obj).1 =
  connections obj
  ++ [(SigFinished, SlotOnTournamentFinished);
      (SigGameStarted, SlotOnGameStarted);
      (SigGameFinished, SlotOnGameFinished)]
  ++ (if m_debug (members obj) then [(SigDebugMessage, SlotPrint)] else []).
Proof. reflexivity. Qed.

Lemma receivers_app (name : signal_name) (cs1 cs2 : list connection) :
  receivers name (cs1 ++ cs2) = receivers name cs1 ++ receivers name cs2.
Proof. unfold receivers. now rewrite List.filter_app, map_app. Qed.

Lemma copies_snoc {A : Type} (n : nat) (l : list A) :
  copies n l ++ l = l ++ copies n l.
Proof.
  induction n as [|n IH]; simpl; [now rewrite app_nil_r|].
  now rewrite <- app_assoc, IH.
Qed.

Lemma started_members (n : nat) (obj : MatchObject) :
  members (started n obj) = members obj.
Proof. induction n as [|n IH]; trivial. Qed.

Lemma started_receivers (n : nat) (em : EngineMatch) (name : signal_name) :
  receivers name (connections (started n (new_object em))) =
  copies n (receivers name (connections (start (new_object em)).1)).
Proof.
  induction n as [|n IH]; trivial.
  cbn [started copies]. rewrite start_connections, receivers_app, IH.
  rewrite started_members. rewrite <- copies_snoc. f_equal.
Qed.

Lemma receivers_of_finished (n : nat) :
  receivers SigGameManagerFinished
            (copies n [(SigGameManagerFinished, SignalFinished)])
  = copies n [SignalFinished].
Proof.
  induction n as [|n IH]; trivial.
  cbn [copies]. rewrite receivers_app, IH. reflexivity.
Qed.

(** A slot that leaves the object as it is, run [n] times. *)
Lemma run_slots_copies (s : slot) (sig : signal) (w : moment)
      (obj : MatchObject) (out : list action) (n : nat) :
  run_slot s sig w obj = (obj, out) ->
  run_slots (copies n [s]) sig w obj = (obj, copies n out).
Proof.
  intros Hrun. induction n as [|n IH]; trivial.
  cbn [copies app run_slots]. now rewrite Hrun, IH.
Qed.

Lemma run_onTournamentFinished_copies (w : moment) (n : nat) :
  forall obj : MatchObject,
  run_slots (copies n [SlotOnTournamentFinished]) TournamentFinished w obj =
  ({| members := members obj;
      connections :=
        connections obj
        ++ copies n [(SigGameManagerFinished, SignalFinished)] |},
   copies n (map Say (onTournamentFinished (members obj) (tournament w))
             ++ [FinishGameManager])).
Proof.
  induction n as [|n IH]; intros obj.
  - simpl. rewrite app_nil_r. now destruct obj.
  - cbn [copies app run_slots run_slot]. rewrite IH. simpl.
    now rewrite <- app_assoc.
Qed.

(** X15.  Debug messages are printed exactly when debug mode was on at
    the time [start] was called: [start] is where the flag is read.
    After [start] on a new match, a debug message is printed, with the
    elapsed time, when the flag was set, and nothing is printed when it
    was not; [setDebugMode] called after [start] changes nothing, and
    [setDebugMode] called before [start] decides. *)
Theorem debug_mode_is_read_by_start
        (em : EngineMatch) (debug : bool) (msg : string) (w : moment) :
  (deliver (DebugMessage msg) w (start (new_object em)).1).2
  = (if m_debug em then [SayDebug (elapsed w) msg] else []) /\
  (deliver (DebugMessage msg) w (set_debug debug (start (new_object em)).1)).2
  = (if m_debug em then [SayDebug (elapsed w) msg] else []) /\
  (deliver (DebugMessage msg) w (start (set_debug debug (new_object em))).1).2
  = (if debug then [SayDebug (elapsed w) msg] else []).
Proof.
  unfold deliver, start, set_debug, new_object, receivers. simpl.
  destruct (m_debug em), debug; repeat split.
Qed.

(** X16.  Each call of [start] connects each slot once more, and a
    signal runs a slot once for each connection: after [n] calls of
    [start] on a new match, a finished (or started) game is reported
    [n] times and the end of the tournament is handled [n] times, so
    nothing is reported before [start] and everything twice after two
    calls.  The signal [finished] of the match is not emitted when the
    game manager finishes before the tournament has; after the
    tournament has finished it is emitted once for each time
    [onTournamentFinished] ran. *)
Theorem signals_run_slots_once_per_start
        (n : nat) (em : EngineMatch) (game : ChessGame) (number : Z)
        (w w' : moment) :
  let obj := started n (new_object em) in
  (deliver (GameFinished game number) w obj).2
  = copies n (map Say (onGameFinished em (tournament w) game number)) /\
  (deliver (GameStarted game number) w obj).2
  = copies n (onGameStarted w game number) /\
  (deliver TournamentFinished w obj).2
  = copies n (map Say (onTournamentFinished em (tournament w))
              ++ [FinishGameManager]) /\
  (deliver GameManagerFinished w obj).2 = [] /\
  (deliver GameManagerFinished w' (deliver TournamentFinished w obj).1).2
  = copies n [EmitFinished].
Proof.
  intros obj.
  assert (Hmembers : members obj = em) by apply started_members.
  assert (Hrecv : forall name,
             receivers name (connections obj)
             = copies n (receivers name
                           (connections (start (new_object em)).1)))
    by (intros name; apply started_receivers).
  assert (Hone : forall name s,
             receivers name (connections (start (new_object em)).1) = [s] ->
             receivers name (connections obj) = copies n [s])
    by (intros name s Hs; now rewrite Hrecv, Hs).
  assert (Hfinished : receivers SigFinished (connections obj)
                      = copies n [SlotOnTournamentFinished])
    by (apply Hone; unfold receivers; simpl; now destruct (m_debug em)).
  assert (Hnone : receivers SigGameManagerFinished (connections obj) = []).
  { rewrite Hrecv, start_connections. unfold receivers.
    replace (map snd _) with (@nil slot)
      by (simpl; now destruct (m_debug em)).
    clear. induction n; simpl; auto. }
  unfold deliver. simpl name_of. split; [|split; [|split; [|split]]].
  - rewrite (Hone SigGameFinished SlotOnGameFinished)
      by (unfold receivers; simpl; now destruct (m_debug em)).
    rewrite (run_slots_copies _ _ _ obj
               (map Say (onGameFinished em (tournament w) game number)));
      trivial.
    simpl. now rewrite Hmembers.
  - rewrite (Hone SigGameStarted SlotOnGameStarted)
      by (unfold receivers; simpl; now destruct (m_debug em)).
    now rewrite (run_slots_copies _ _ _ obj (onGameStarted w game number)).
  - rewrite Hfinished, run_onTournamentFinished_copies.
    simpl. now rewrite Hmembers.
  - now rewrite Hnone.
  - rewrite Hfinished, run_onTournamentFinished_copies.
    cbn [fst snd connections].
    rewrite receivers_app, Hnone. simpl.
    set (after := {| members := members obj; connections := _ |}).
    rewrite receivers_of_finished.
    now rewrite (run_slots_copies _ _ _ after [EmitFinished]).
Qed.
